(** * Crossword CSP solver (generate.py): a shallow embedding

    The class [CrosswordCreator] of generate.py is embedded method by
    method.  Python exceptions are results of an error monad, Python
    dictionaries are insertion-ordered association lists (the code iterates
    over them, so the order is part of the behaviour), Python sets are
    lists in their iteration order, and [random.choice] reads an explicit
    stream of draws. *)

From Stdlib Require Import List String Ascii Arith Bool Lia PeanoNat.
Import ListNotations.

Set Implicit Arguments.

(** ** Exceptions and results *)

Inductive exn : Type := KeyError | IndexError | TypeError | ValueError.

Inductive res (A : Type) : Type :=
| Ok (a : A)
| Raise (e : exn).

Arguments Ok {A} a.
Arguments Raise {A} e.

Definition bind {A B : Type} (m : res A) (f : A -> res B) : res B :=
  match m with
  | Ok a => f a
  | Raise e => Raise e
  end.

Notation "x <- m ;; k" := (bind m (fun x => k))
  (at level 61, m at next level, right associativity).
Notation "' p <- m ;; k" := (bind m (fun x => match x with p => k end))
  (at level 61, p pattern, m at next level, right associativity).

(** [d[k]] on an optional value: a missing entry raises [e]. *)
Definition or_raise {A : Type} (e : exn) (o : option A) : res A :=
  match o with
  | Some a => Ok a
  | None => Raise e
  end.

(** ** Python dictionaries: insertion-ordered, unique keys *)

Module Dict.
Definition t (K V : Type) : Type := list (K * V).

Section Ops.
Context {K V : Type} (eqb : K -> K -> bool).

(** [k in d] and [d[k]] *)
Fixpoint get (k : K) (d : t K V) : option V :=
  match d with
  | [] => None
  | (k', v) :: d' => if eqb k k' then Some v else get k d'
  end.

Definition mem (k : K) (d : t K V) : bool :=
  match get k d with Some _ => true | None => false end.

(** [d[k] = v]: an existing key keeps its position, a new key goes last. *)
Fixpoint set (k : K) (v : V) (d : t K V) : t K V :=
  match d with
  | [] => [(k, v)]
  | (k', v') :: d' => if eqb k k' then (k', v) :: d' else (k', v') :: set k v d'
  end.

Definition keys (d : t K V) : list K := map fst d.
Definition values (d : t K V) : list V := map snd d.
Definition items (d : t K V) : list (K * V) := d.
End Ops.
End Dict.

(** ** The slot model (class Variable and class Crossword) *)

(** Modelled from the spec: the two directions of a slot,
    [Variable.ACROSS] and [Variable.DOWN]. *)
Inductive Direction : Type := ACROSS | DOWN.

(** Modelled from the spec: class Variable of module crossword, a slot with
    the attributes [i], [j], [direction] and [length]; two slots are the same
    when the four attributes match.  ([Variable] is a command of Rocq, and
    [length] is the length of lists and strings, hence the names.) *)
Record Var : Type := mkVar {
  var_i : nat;
  var_j : nat;
  var_direction : Direction;
  var_length : nat
}.

Definition Direction_eqb (a b : Direction) : bool :=
  match a, b with
  | ACROSS, ACROSS | DOWN, DOWN => true
  | _, _ => false
  end.

Definition Var_eqb (x y : Var) : bool :=
  (var_i x =? var_i y) && (var_j x =? var_j y)
  && Direction_eqb (var_direction x) (var_direction y)
  && (var_length x =? var_length y).

(** Modelled from the spec: class Crossword (module crossword is imported
    by generate.py but is not among the sources).  The solver reads four
    members: the vocabulary [words] (a set), the slots [variables] (a set),
    the table [overlaps], which for an ordered pair of slots holds the pair
    of character offsets of the shared cell or the absence signal, and the
    method [neighbors(var)], the set of slots that overlap [var]. *)
Record Crossword : Type := mkCrossword {
  words : list string;
  variables : list Var;
  overlaps : Var -> Var -> option (nat * nat);
  neighbors : Var -> list Var
}.

(** The state of a [CrosswordCreator] object: [self.crossword] and
    [self.domains]. *)
Record CrosswordCreator : Type := mkCreator {
  crossword : Crossword;
  domains : Dict.t Var (list string)
}.

Definition dget (x : Var) (d : Dict.t Var (list string)) : option (list string) :=
  Dict.get Var_eqb x d.

Definition dset (x : Var) (v : list string) (d : Dict.t Var (list string)) :
  Dict.t Var (list string) :=
  Dict.set Var_eqb x v d.

(** [__init__]: every slot starts with a copy of the whole vocabulary. *)
Definition init (c : Crossword) : CrosswordCreator :=
  {| crossword := c;
     domains := fold_left (fun d var => dset var (words c) d) (variables c) [] |}.

(** ** Node consistency *)

(** [set(iterable)]: duplicates collapse. *)
Definition py_set (l : list string) : list string := nodup string_dec l.

(** [enforce_node_consistency] *)
Definition enforce_node_consistency (s : CrosswordCreator) : CrosswordCreator :=
  let new_domains :=
    fold_left
      (fun nd '(val, domain) =>
         dset val
           (py_set (filter (fun x => String.length x =? var_length val) domain))
           nd)
      (Dict.items (domains s)) [] in
  {| crossword := crossword s; domains := new_domains |}.

(** ** Arc consistency *)

(** [word[k]]: an offset past the end raises IndexError. *)
Definition getitem (word : string) (k : nat) : res ascii :=
  or_raise IndexError (String.get k word).

(** The inner comprehension of [revise]:
    [[word_y for word_y in domain_y if word_x[x_i] == word_y[y_i]]] *)
Fixpoint compatible_words (word_x : string) (x_i y_i : nat)
    (domain_y : list string) : res (list string) :=
  match domain_y with
  | [] => Ok []
  | word_y :: rest =>
      cx <- getitem word_x x_i ;;
      cy <- getitem word_y y_i ;;
      tl <- compatible_words word_x x_i y_i rest ;;
      Ok (if Ascii.eqb cx cy then word_y :: tl else tl)
  end.

(** The loop of [revise] over [domain_x], building [new_domain_x]. *)
Fixpoint revise_loop (x_i y_i : nat) (domain_y domain_x : list string) :
    res (list string) :=
  match domain_x with
  | [] => Ok []
  | word_x :: rest =>
      compatible <- compatible_words word_x x_i y_i domain_y ;;
      tl <- revise_loop x_i y_i domain_y rest ;;
      Ok (if negb (List.length compatible =? 0) then word_x :: tl else tl)
  end.

(** [revise(x, y)]: the flag returned and the object after the call.  A pair
    without offsets in [overlaps] makes the call raise; the table is a total
    function here, so a pair the Python dictionary does not hold at all and a
    pair it maps to [None] are not told apart, and the exception is written
    TypeError for both. *)
Definition revise (x y : Var) (s : CrosswordCreator) :
    res (bool * CrosswordCreator) :=
  domain_x <- or_raise KeyError (dget x (domains s)) ;;
  domain_y <- or_raise KeyError (dget y (domains s)) ;;
  ' (x_i, y_i) <- or_raise TypeError (overlaps (crossword s) x y) ;;
  new_domain_x <- revise_loop x_i y_i domain_y domain_x ;;
  Ok (negb (List.length new_domain_x =? List.length domain_x),
      {| crossword := crossword s;
         domains := dset x new_domain_x (domains s) |}).

Definition Arc : Type := (Var * Var)%type.

(** The arcs [ac3] starts from when [arcs is None]:
    [[(x,y) for x in self.domains.keys() for y in self.crossword.neighbors(x)]] *)
Definition all_arcs (s : CrosswordCreator) : list Arc :=
  flat_map (fun x => map (fun y => (x, y)) (neighbors (crossword s) x))
           (Dict.keys (domains s)).

(** The arcs pushed after a revision of [x]. *)
Definition arcs_from (c : Crossword) (x : Var) : list Arc :=
  map (fun neighbor => (x, neighbor)) (neighbors c x).

(** The [while] loop of [ac3]; [None] when the iterations allowed by
    [fuel] do not suffice. *)
Fixpoint ac3_loop (fuel : nat) (s : CrosswordCreator) (queue : list Arc) :
    option (res (bool * CrosswordCreator)) :=
  match queue with
  | [] => Some (Ok (true, s))
  | (x, y) :: queue' =>
      match fuel with
      | 0 => None
      | S fuel' =>
          match revise x y s with
          | Raise e => Some (Raise e)
          | Ok (true, s') =>
              match dget x (domains s') with
              | None => Some (Raise KeyError)
              | Some domain_x =>
                  if List.length domain_x =? 0 then Some (Ok (false, s'))
                  else ac3_loop fuel' s' (queue' ++ arcs_from (crossword s') x)
              end
          | Ok (false, s') => ac3_loop fuel' s' queue'
          end
      end
  end.

(** Number of candidate words in the whole domain store. *)
Definition total_size (d : Dict.t Var (list string)) : nat :=
  list_sum (map (fun e => List.length (snd e)) d).

(** Largest number of arcs one revision of the first slot of an arc of
    [queue] can push. *)
Definition max_push (c : Crossword) (queue : list Arc) : nat :=
  list_max (map (fun a => List.length (neighbors c (fst a))) queue).

(** Iterations that suffice for the loop of [ac3]: every iteration pops
    one arc, and only an iteration that removes a word pushes arcs. *)
Definition ac3_fuel (s : CrosswordCreator) (queue : list Arc) : nat :=
  List.length queue + total_size (domains s) * max_push (crossword s) queue.

(** The worklist [ac3] starts with; [arcs = None] is the default argument. *)
Definition initial_queue (arcs : option (list Arc)) (s : CrosswordCreator) : list Arc :=
  match arcs with
  | None => all_arcs s
  | Some arcs => arcs
  end.

(** [ac3(arcs)] *)
Definition ac3 (arcs : option (list Arc)) (s : CrosswordCreator) :
    option (res (bool * CrosswordCreator)) :=
  let queue := initial_queue arcs s in
  ac3_loop (ac3_fuel s queue) s queue.

(** ** Assignments and the two predicates *)

(** A value stored in an assignment: a word, or Python's [None]. *)
Definition pyword : Type := option string.

Definition pyword_eqb (a b : pyword) : bool :=
  match a, b with
  | Some u, Some v => String.eqb u v
  | None, None => true
  | _, _ => false
  end.

Definition Assignment : Type := Dict.t Var pyword.

Definition aget (x : Var) (a : Assignment) : option pyword := Dict.get Var_eqb x a.
Definition aset (x : Var) (w : pyword) (a : Assignment) : Assignment :=
  Dict.set Var_eqb x w a.

(** [len(word)]: [None] has no length. *)
Definition len (word : pyword) : res nat :=
  match word with
  | Some w => Ok (String.length w)
  | None => Raise TypeError
  end.

(** [word[k]] for a value of an assignment. *)
Definition pygetitem (word : pyword) (k : nat) : res ascii :=
  match word with
  | Some w => getitem w k
  | None => Raise TypeError
  end.

(** [assignment_complete] *)
Definition assignment_complete (s : CrosswordCreator) (assignment : Assignment) : bool :=
  forallb (fun var => Dict.mem Var_eqb var assignment) (variables (crossword s)).

(** The inner loop of [consistent] over the neighbors of [var]:
    [Ok true] when the loop runs to its end, [Ok false] for [return False]. *)
Fixpoint check_neighbors (c : Crossword) (assignment : Assignment)
    (var : Var) (word : pyword) (ns : list Var) : res bool :=
  match ns with
  | [] => Ok true
  | neighbor :: rest =>
      neighbor_word <- or_raise KeyError (aget neighbor assignment) ;;
      match neighbor_word with
      | None => check_neighbors c assignment var word rest
      | Some _ =>
          ' (var_i, neighbor_i) <- or_raise TypeError (overlaps c var neighbor) ;;
          a <- pygetitem word var_i ;;
          b <- pygetitem neighbor_word neighbor_i ;;
          if negb (Ascii.eqb a b) then Ok false
          else check_neighbors c assignment var word rest
      end
  end.

(** The outer loop of [consistent] over [assignment.items()]. *)
Fixpoint consistent_loop (c : Crossword) (assignment : Assignment)
    (items : list (Var * pyword)) (present_words : list pyword) : res bool :=
  match items with
  | [] => Ok true
  | (var, word) :: rest =>
      if existsb (pyword_eqb word) present_words then Ok false
      else
        n <- len word ;;
        if negb (n =? var_length var) then Ok false
        else
          ok <- check_neighbors c assignment var word (neighbors c var) ;;
          if ok then consistent_loop c assignment rest (present_words ++ [word])
          else Ok false
  end.

(** [consistent] *)
Definition consistent (s : CrosswordCreator) (assignment : Assignment) : res bool :=
  consistent_loop (crossword s) assignment (Dict.items assignment) [].

(** ** Value ordering *)

(** One iteration of the loop of [order_domain_values] over the neighbors. *)
Definition count_neighbor (assignment : Assignment)
    (best_value : Dict.t string nat) (neighbor : Var) : Dict.t string nat :=
  match aget neighbor assignment with
  | None => best_value
  | Some None => best_value
  | Some (Some neighbor_word) =>
      match Dict.get String.eqb neighbor_word best_value with
      | None => best_value
      | Some n => Dict.set String.eqb neighbor_word (n + 1) best_value
      end
  end.

(** [list.sort(key=...)] is stable: insertion keeps the first of two equal
    keys first. *)
Fixpoint insert_by (key : string -> nat) (x : string) (l : list string) : list string :=
  match l with
  | [] => [x]
  | y :: l' => if key x <=? key y then x :: y :: l' else y :: insert_by key x l'
  end.

Definition sort_by (key : string -> nat) (l : list string) : list string :=
  fold_right (insert_by key) [] l.

(** [order_domain_values] *)
Definition order_domain_values (s : CrosswordCreator) (var : Var)
    (assignment : Assignment) : res (list string) :=
  domain <- or_raise KeyError (dget var (domains s)) ;;
  let best_value0 :=
    fold_left (fun d value => Dict.set String.eqb value 0 d) domain [] in
  let best_value :=
    fold_left (count_neighbor assignment) (neighbors (crossword s) var) best_value0 in
  let values := Dict.keys best_value in
  Ok (sort_by (fun x => match Dict.get String.eqb x best_value with
                        | Some n => n
                        | None => 0
                        end) values).

(** ** Variable ordering *)

(** The random source: the stream of draws still to be used. *)
Definition rng : Type := nat -> nat.

(** [random.choice(seq)] *)
Definition random_choice {A : Type} (seq : list A) (g : rng) : res (A * rng) :=
  match seq with
  | [] => Raise IndexError
  | _ :: _ =>
      x <- or_raise IndexError (nth_error seq (g 0 mod List.length seq)) ;;
      Ok (x, fun n => g (S n))
  end.

(** [min(values)] *)
Definition py_min (l : list nat) : res nat :=
  match l with
  | [] => Raise ValueError
  | x :: l' => Ok (fold_left Nat.min l' x)
  end.

(** A dictionary comprehension [{k: f(k) for k in l}]. *)
Fixpoint dict_comp {K V : Type} (eqb : K -> K -> bool) (f : K -> res V)
    (l : list K) (acc : Dict.t K V) : res (Dict.t K V) :=
  match l with
  | [] => Ok acc
  | k :: rest => v <- f k ;; dict_comp eqb f rest (Dict.set eqb k v acc)
  end.

(** A list comprehension [[x for x in l if p(x)]]. *)
Fixpoint list_comp {A : Type} (p : A -> res bool) (l : list A) : res (list A) :=
  match l with
  | [] => Ok []
  | x :: rest =>
      b <- p x ;;
      tl <- list_comp p rest ;;
      Ok (if b then x :: tl else tl)
  end.

(** The comprehension [[v for v in vars if table[v] == min(table.values())]]. *)
Definition argmin_comp (table : Dict.t Var nat) (vars : list Var) : res (list Var) :=
  list_comp (fun variable =>
               n <- or_raise KeyError (Dict.get Var_eqb variable table) ;;
               m <- py_min (Dict.values table) ;;
               Ok (n =? m)) vars.

(** The slots without an entry in [assignment]:
    [[variable for variable in self.crossword.variables
      if variable not in assignment.keys()]] *)
Definition unassigned (s : CrosswordCreator) (assignment : Assignment) : list Var :=
  filter (fun variable => negb (Dict.mem Var_eqb variable assignment))
         (variables (crossword s)).

(** [select_unassigned_variable] *)
Definition select_unassigned_variable (s : CrosswordCreator)
    (assignment : Assignment) (g : rng) : res (Var * rng) :=
  let remaining_variables := unassigned s assignment in
  number_of_values_by_domains <-
    dict_comp Var_eqb
      (fun variable =>
         d <- or_raise KeyError (dget variable (domains s)) ;;
         Ok (List.length d))
      remaining_variables [] ;;
  remaining_variables_min_remaining_values <-
    argmin_comp number_of_values_by_domains remaining_variables ;;
  if List.length remaining_variables =? 1 then
    v <- or_raise IndexError (nth_error remaining_variables_min_remaining_values 0) ;;
    Ok (v, g)
  else
    degree_by_variable <-
      dict_comp Var_eqb
        (fun variable => Ok (List.length (neighbors (crossword s) variable)))
        remaining_variables_min_remaining_values [] ;;
    remaining_min_degree <-
      argmin_comp degree_by_variable remaining_variables_min_remaining_values ;;
    random_choice remaining_min_degree g.

(** ** Backtracking search *)

(** The [for] loop of [backtrack] over the ordered values; [rec] is the
    recursive call. *)
Fixpoint try_values
    (rec : Assignment -> rng -> option (res (option Assignment * rng)))
    (assignment : Assignment) (treated_var : Var)
    (possible_values : list string) (g : rng) :
    option (res (option Assignment * rng)) :=
  match possible_values with
  | [] => Some (Ok (None, g))
  | possible_value :: rest =>
      let possible_assignment := aset treated_var (Some possible_value) assignment in
      match rec possible_assignment g with
      | None => None
      | Some (Raise e) => Some (Raise e)
      | Some (Ok (Some new_assignment, g')) => Some (Ok (Some new_assignment, g'))
      | Some (Ok (None, g')) => try_values rec assignment treated_var rest g'
      end
  end.

(** [backtrack]; [None] when the recursion depth allowed by [fuel] does not
    suffice. *)
Fixpoint backtrack (fuel : nat) (s : CrosswordCreator) (assignment : Assignment)
    (g : rng) : option (res (option Assignment * rng)) :=
  match fuel with
  | 0 => None
  | S fuel' =>
      if assignment_complete s assignment then
        match consistent s assignment with
        | Raise e => Some (Raise e)
        | Ok true => Some (Ok (Some assignment, g))
        | Ok false => Some (Ok (None, g))
        end
      else
        match select_unassigned_variable s assignment g with
        | Raise e => Some (Raise e)
        | Ok (treated_var, g') =>
            match order_domain_values s treated_var assignment with
            | Raise e => Some (Raise e)
            | Ok possible_values =>
                try_values (backtrack fuel' s) assignment treated_var
                           possible_values g'
            end
        end
  end.

(** [solve]: the signal of [ac3] is not looked at. *)
Definition solve (s : CrosswordCreator) (g : rng) : option (res (option Assignment)) :=
  let s1 := enforce_node_consistency s in
  match ac3 None s1 with
  | None => None
  | Some (Raise e) => Some (Raise e)
  | Some (Ok (_, s2)) =>
      match backtrack (S (List.length (unassigned s2 []))) s2 [] g with
      | None => None
      | Some (Raise e) => Some (Raise e)
      | Some (Ok (result, _)) => Some (Ok result)
      end
  end.

(** ** The letter grid *)

(** The 2D array of [letter_grid]: rows of cells, a cell holding a
    character or [None]. *)
Definition Grid : Type := list (list (option ascii)).

(** [l[n] = x] on a list, for [n] in range. *)
Fixpoint list_set {A : Type} (n : nat) (x : A) (l : list A) : list A :=
  match l, n with
  | [], _ => []
  | _ :: l', 0 => x :: l'
  | y :: l', S n' => y :: list_set n' x l'
  end.

(** [letters[i][j] = c]: a row or a column past the end raises IndexError. *)
Definition set_cell (letters : Grid) (i j : nat) (c : ascii) : res Grid :=
  row <- or_raise IndexError (nth_error letters i) ;;
  if j <? List.length row
  then Ok (list_set i (list_set j (Some c) row) letters)
  else Raise IndexError.

(** The loop [for k in range(len(word))] of [letter_grid]. *)
Fixpoint letter_loop (variable : Var) (word : pyword) (ks : list nat)
    (letters : Grid) : res Grid :=
  match ks with
  | [] => Ok letters
  | k :: ks' =>
      let direction := var_direction variable in
      let i := var_i variable + (if Direction_eqb direction DOWN then k else 0) in
      let j := var_j variable + (if Direction_eqb direction ACROSS then k else 0) in
      c <- pygetitem word k ;;
      letters' <- set_cell letters i j c ;;
      letter_loop variable word ks' letters'
  end.

(** The loop of [letter_grid] over [assignment.items()]. *)
Fixpoint letter_items (items : list (Var * pyword)) (letters : Grid) : res Grid :=
  match items with
  | [] => Ok letters
  | (variable, word) :: rest =>
      n <- len word ;;
      letters' <- letter_loop variable word (seq 0 n) letters ;;
      letter_items rest letters'
  end.

(** [letter_grid]; [height] and [width] are [self.crossword.height] and
    [self.crossword.width], two members of the crossword that the solver
    does not read. *)
Definition letter_grid (height width : nat) (assignment : Assignment) : res Grid :=
  letter_items (Dict.items assignment) (repeat (repeat None width) height).

(** ** Two small crosswords *)

Module Examples.
Local Open Scope string_scope.

(** A grid of two rows: slot [A] fills the first row, slots [B] and [C] go
    down from its first and its last cell. *)
Definition A : Var := mkVar 0 0 ACROSS 3.
Definition B : Var := mkVar 0 0 DOWN 2.
Definition C : Var := mkVar 0 2 DOWN 2.

Definition overlaps3 (x y : Var) : option (nat * nat) :=
  if Var_eqb x A && Var_eqb y B then Some (0, 0)
  else if Var_eqb x B && Var_eqb y A then Some (0, 0)
  else if Var_eqb x A && Var_eqb y C then Some (2, 0)
  else if Var_eqb x C && Var_eqb y A then Some (0, 2)
  else None.

Definition neighbors3 (x : Var) : list Var :=
  if Var_eqb x A then [B; C]
  else if Var_eqb x B then [A]
  else if Var_eqb x C then [A]
  else [].

Definition crossword3 : Crossword :=
  {| words := ["cat"; "dog"; "co"; "to"];
     variables := [A; B; C];
     overlaps := overlaps3;
     neighbors := neighbors3 |}.

(** The creator of [crossword3] after node consistency. *)
Definition creator3 : CrosswordCreator :=
  enforce_node_consistency (init crossword3).

(** A grid with the single slot [A] and no word of its length. *)
Definition crossword1 : Crossword :=
  {| words := ["ab"];
     variables := [A];
     overlaps := fun _ _ => None;
     neighbors := fun _ => [] |}.

Definition creator1 : CrosswordCreator :=
  enforce_node_consistency (init crossword1).

(** [creator3] after the call [revise(A, B)]: the word dog has no partner
    in the domain of [B] and leaves the domain of [A]. *)
Definition creator3_revised : CrosswordCreator :=
  {| crossword := crossword3;
     domains := dset A ["cat"] (domains creator3) |}.

(** The grid of [crossword3] with a vocabulary that has no word of length
    two or three: node consistency empties every domain. *)
Definition crossword0 : Crossword :=
  {| words := ["a"];
     variables := [A; B; C];
     overlaps := overlaps3;
     neighbors := neighbors3 |}.

Definition creator0 : CrosswordCreator :=
  enforce_node_consistency (init crossword0).

(** The filling of [crossword3]: cat across, co and to down. *)
Definition sigma3 (v : Var) : string :=
  if Var_eqb v A then "cat" else if Var_eqb v B then "co" else "to".

(** A random source that always draws [k]. *)
Definition const_rng (k : nat) : rng := fun _ => k.

End Examples.

(** ** Notions used in the statements *)

(** The words [enforce_node_consistency] keeps for a slot. *)
Definition node_filter (val : Var) (domain : list string) : list string :=
  py_set (filter (fun x => String.length x =? var_length val) domain).

(** [w] and [w'] carry the same character at the offsets [x_i] and [y_i]. *)
Definition agree (x_i y_i : nat) (w w' : string) : Prop :=
  exists ch, String.get x_i w = Some ch /\ String.get y_i w' = Some ch.

Definition agreeb (x_i y_i : nat) (w w' : string) : bool :=
  match String.get x_i w, String.get y_i w' with
  | Some a, Some b => Ascii.eqb a b
  | _, _ => false
  end.

(** The words of [domain_x] that [revise] keeps. *)
Definition supported (x_i y_i : nat) (domain_y domain_x : list string) : list string :=
  filter (fun w => existsb (agreeb x_i y_i w) domain_y) domain_x.

(** A complete assignment: every slot of the crossword has a word. *)
Definition complete (c : Crossword) (a : Assignment) : Prop :=
  forall v, In v (variables c) -> exists w, aget v a = Some (Some w).

(** The words of different slots differ. *)
Definition pairwise_distinct (a : Assignment) : Prop :=
  forall x y wx wy,
    x <> y -> aget x a = Some (Some wx) -> aget y a = Some (Some wy) -> wx <> wy.

(** Every word has the length of its slot. *)
Definition lengths_fit (a : Assignment) : Prop :=
  forall x w, aget x a = Some (Some w) -> String.length w = var_length x.

(** The words of neighboring slots carry the same character in the shared
    cell. *)
Definition overlaps_agree (c : Crossword) (a : Assignment) : Prop :=
  forall x y,
    In x (variables c) -> In y (neighbors c x) ->
    exists wx wy x_i y_i,
      aget x a = Some (Some wx) /\ aget y a = Some (Some wy)
      /\ overlaps c x y = Some (x_i, y_i) /\ agree x_i y_i wx wy.

(** A slot model as the spec describes it: the slots form a set, the
    neighbors of a slot are other slots of the crossword, and a pair of
    neighbors has an overlap entry whose offsets lie inside the two slots. *)
Definition wf_crossword (c : Crossword) : Prop :=
  NoDup (variables c)
  /\ forall x y,
      In x (variables c) -> In y (neighbors c x) ->
      In y (variables c) /\ y <> x
      /\ exists x_i y_i,
          overlaps c x y = Some (x_i, y_i)
          /\ x_i < var_length x /\ y_i < var_length y.

(** A creator as [__init__] leaves it, up to the contents of the domains:
    the domain store is a dictionary whose keys are the slots. *)
Definition wf_creator (s : CrosswordCreator) : Prop :=
  wf_crossword (crossword s)
  /\ NoDup (Dict.keys (domains s))
  /\ forall v, In v (Dict.keys (domains s)) <-> In v (variables (crossword s)).

(** Number of words left for a slot, and number of neighbors of a slot. *)
Definition domain_size (s : CrosswordCreator) (v : Var) : nat :=
  match dget v (domains s) with
  | Some d => List.length d
  | None => 0
  end.

Definition degree (c : Crossword) (v : Var) : nat := List.length (neighbors c v).

(** Every word of every domain has the length of its slot. *)
Definition node_consistent (s : CrosswordCreator) : Prop :=
  forall v d w, dget v (domains s) = Some d -> In w d ->
                String.length w = var_length v.

(** The entries of an assignment built by the search: slots of the
    crossword, each with a word of its length. *)
Definition words_fit (c : Crossword) (a : Assignment) : Prop :=
  forall v word,
    In (v, word) a ->
    In v (variables c)
    /\ exists w, word = Some w /\ String.length w = var_length v.

(** The arcs [ac3] is meant for: a slot of the crossword and one of its
    neighbors. *)
Definition arcs_ok (c : Crossword) (queue : list Arc) : Prop :=
  forall x y, In (x, y) queue -> In x (variables c) /\ In y (neighbors c x).

(** The cost [order_domain_values] sorts by: the number of neighbors of
    [var] that are assigned the word [w]. *)
Definition assigned_to (assignment : Assignment) (w : string) (n : Var) : bool :=
  match aget n assignment with
  | Some (Some w') => String.eqb w' w
  | _ => false
  end.

Definition lcv_cost (c : Crossword) (assignment : Assignment) (var : Var)
    (w : string) : nat :=
  List.length (filter (assigned_to assignment w) (neighbors c var)).

(** A list in ascending order of [key]. *)
Fixpoint ascending (key : string -> nat) (l : list string) : Prop :=
  match l with
  | [] => True
  | x :: l' => (forall y, In y l' -> key x <= key y) /\ ascending key l'
  end.

(** A filling of the crossword: a word for every slot such that the words
    have the lengths of their slots, different slots have different words,
    and neighboring slots carry the same character in their shared cell. *)
Definition filling (c : Crossword) (sigma : Var -> string) : Prop :=
  (forall v, In v (variables c) -> String.length (sigma v) = var_length v)
  /\ (forall x y, In x (variables c) -> In y (variables c) -> x <> y ->
                  sigma x <> sigma y)
  /\ (forall x y, In x (variables c) -> In y (neighbors c x) ->
        exists x_i y_i,
          overlaps c x y = Some (x_i, y_i)
          /\ agree x_i y_i (sigma x) (sigma y)).

(** The filling takes every word from the domain of its slot. *)
Definition within (s : CrosswordCreator) (sigma : Var -> string) : Prop :=
  forall v, In v (variables (crossword s)) ->
            exists d, dget v (domains s) = Some d /\ In (sigma v) d.

(** The assignment is a dictionary that gives slots of the crossword their
    words of the filling. *)
Definition follows (c : Crossword) (sigma : Var -> string) (a : Assignment) : Prop :=
  NoDup (Dict.keys a)
  /\ forall v word, In (v, word) a -> In v (variables c) /\ word = Some (sigma v).

(** [r] keeps the entries of [a] and adds entries for slots of the crossword,
    each with a word of the slot's domain. *)
Definition extends (s : CrosswordCreator) (a r : Assignment) : Prop :=
  (forall k word, aget k a = Some word -> aget k r = Some word)
  /\ (forall k word, aget k r = Some word ->
        aget k a = Some word
        \/ (aget k a = None /\ In k (variables (crossword s))
            /\ exists w d, word = Some w /\ dget k (domains s) = Some d
                           /\ In w d)).

(** The content of the cell in row [i] and column [j] of a grid. *)
Definition cell (g : Grid) (i j : nat) : option ascii :=
  match nth_error g i with
  | Some row => match nth_error row j with
                | Some c => c
                | None => None
                end
  | None => None
  end.

(** A grid of [height] rows of [width] cells. *)
Definition rect (height width : nat) (g : Grid) : Prop :=
  List.length g = height /\ forall row, In row g -> List.length row = width.

(** The cell of the [k]-th character of a slot. *)
Definition cell_of (variable : Var) (k : nat) : nat * nat :=
  match var_direction variable with
  | ACROSS => (var_i variable, var_j variable + k)
  | DOWN => (var_i variable + k, var_j variable)
  end.

(** The character the word [w] in slot [variable] puts in cell [(i, j)],
    if the slot runs through that cell. *)
Definition letter_of (variable : Var) (w : string) (i j : nat) : option ascii :=
  match var_direction variable with
  | ACROSS =>
      if (i =? var_i variable) && (var_j variable <=? j)
      then String.get (j - var_j variable) w else None
  | DOWN =>
      if (j =? var_j variable) && (var_i variable <=? i)
      then String.get (i - var_i variable) w else None
  end.

(** The character of the last entry of the assignment whose word runs
    through cell [(i, j)]. *)
Definition shown (a : Assignment) (i j : nat) : option ascii :=
  fold_left
    (fun acc '(v, word) =>
       match word with
       | Some w => match letter_of v w i j with
                   | Some c => Some c
                   | None => acc
                   end
       | None => acc
       end) a None.

(** Every entry is a word whose cells lie in the grid. *)
Definition fits (height width : nat) (a : Assignment) : Prop :=
  forall v word, In (v, word) a ->
    exists w, word = Some w
      /\ forall k, k < String.length w ->
            fst (cell_of v k) < height /\ snd (cell_of v k) < width.

(** * Properties *)

(** Inversion of a sequence [x <- m ;; k] that returned: [m] returned [x],
    recorded as [E]. *)
Tactic Notation "bind_ok" hyp(H) "as" simple_intropattern(x) ident(E) :=
  match type of H with
  | bind ?m _ = Ok _ => destruct m as [x|] eqn:E; simpl in H; [|discriminate H]
  end.

Lemma or_raise_Ok {A : Type} (e : exn) (o : option A) (a : A) :
  or_raise e o = Ok a -> o = Some a.
Proof. destruct o; simpl; congruence. Qed.

(** ** Equality tests *)

Lemma Direction_eqb_eq (a b : Direction) : Direction_eqb a b = true <-> a = b.
Proof. destruct a, b; simpl; split; congruence. Qed.

Lemma Var_eqb_eq (x y : Var) : Var_eqb x y = true <-> x = y.
Proof.
  destruct x as [xi xj xd xl], y as [yi yj yd yl]; unfold Var_eqb; simpl.
  rewrite !andb_true_iff, !Nat.eqb_eq, Direction_eqb_eq.
  split.
  - intros [[[-> ->] ->] ->]; reflexivity.
  - intros H; injection H as -> -> -> ->; auto.
Qed.

Lemma Var_eqb_refl (x : Var) : Var_eqb x x = true.
Proof. apply Var_eqb_eq; reflexivity. Qed.

Lemma Var_eqb_neq (x y : Var) : Var_eqb x y = false <-> x <> y.
Proof.
  rewrite <- Var_eqb_eq. destruct (Var_eqb x y); split; congruence.
Qed.

Lemma Var_eq_dec (x y : Var) : {x = y} + {x <> y}.
Proof.
  destruct (Var_eqb x y) eqn:E.
  - left. apply Var_eqb_eq. exact E.
  - right. apply Var_eqb_neq. exact E.
Qed.

Lemma pyword_eqb_eq (a b : pyword) : pyword_eqb a b = true <-> a = b.
Proof.
  destruct a as [u|], b as [v|]; simpl; try (split; congruence).
  rewrite String.eqb_eq. split; congruence.
Qed.

(** ** Dictionaries *)

Section DictFacts.
Context {K V : Type} (eqb : K -> K -> bool).
Hypothesis eqb_eq : forall a b, eqb a b = true <-> a = b.

Local Abbreviation get := (Dict.get eqb).
Local Abbreviation set := (Dict.set eqb).
Local Abbreviation keys := (@Dict.keys K V).

Lemma eqb_refl' (k : K) : eqb k k = true.
Proof. apply eqb_eq; reflexivity. Qed.

Lemma eqb_false (a b : K) : a <> b -> eqb a b = false.
Proof.
  intros H. destruct (eqb a b) eqn:E; [|reflexivity].
  apply eqb_eq in E. contradiction.
Qed.

Lemma get_set_same (k : K) (v : V) (d : Dict.t K V) : get k (set k v d) = Some v.
Proof.
  induction d as [|[k' v'] d IH]; simpl.
  - rewrite eqb_refl'. reflexivity.
  - destruct (eqb k k') eqn:E; simpl; rewrite E; auto.
Qed.

Lemma get_set_other (k k0 : K) (v : V) (d : Dict.t K V) :
  k0 <> k -> get k0 (set k v d) = get k0 d.
Proof.
  intros Hne. induction d as [|[k' v'] d IH]; simpl.
  - rewrite (eqb_false Hne). reflexivity.
  - destruct (eqb k k') eqn:E; simpl.
    + apply eqb_eq in E. subst k'. rewrite (eqb_false Hne). reflexivity.
    + destruct (eqb k0 k'); auto.
Qed.

Lemma get_Some_In (k : K) (v : V) (d : Dict.t K V) :
  get k d = Some v -> In (k, v) d.
Proof.
  induction d as [|[k' v'] d IH]; simpl; [discriminate|].
  destruct (eqb k k') eqn:E.
  - apply eqb_eq in E. intros [= ->]. left. congruence.
  - intros H. right. auto.
Qed.

Lemma get_None_keys (k : K) (d : Dict.t K V) :
  get k d = None <-> ~ In k (keys d).
Proof.
  induction d as [|[k' v'] d IH]; simpl.
  - tauto.
  - destruct (eqb k k') eqn:E.
    + apply eqb_eq in E. subst. split; [discriminate|]. intros H. exfalso. auto.
    + rewrite IH. split.
      * intros H [H1|H1]; [|auto]. subst. rewrite eqb_refl' in E. discriminate.
      * intros H H1. auto.
Qed.

Lemma mem_keys (k : K) (d : Dict.t K V) :
  Dict.mem eqb k d = true <-> In k (keys d).
Proof.
  unfold Dict.mem. destruct (get k d) eqn:E.
  - split; [intros _|reflexivity].
    apply get_Some_In in E. apply (in_map fst) in E. exact E.
  - apply get_None_keys in E. split; [discriminate|contradiction].
Qed.

Lemma In_get_NoDup (k : K) (v : V) (d : Dict.t K V) :
  NoDup (keys d) -> In (k, v) d -> get k d = Some v.
Proof.
  induction d as [|[k' v'] d IH]; simpl; [tauto|].
  intros Hnd [H|H].
  - injection H as -> ->. rewrite eqb_refl'. reflexivity.
  - inversion Hnd as [|? ? Hnot Hnd']; subst.
    destruct (eqb k k') eqn:E.
    + apply eqb_eq in E. subst. exfalso. apply Hnot.
      apply (in_map fst) in H. exact H.
    + auto.
Qed.

Lemma set_present_keys (k : K) (v : V) (d : Dict.t K V) :
  In k (keys d) -> keys (set k v d) = keys d.
Proof.
  induction d as [|[k' v'] d IH]; simpl; [tauto|].
  intros H. destruct (eqb k k') eqn:E; simpl; [reflexivity|].
  f_equal. apply IH. destruct H as [H|H]; [|exact H].
  subst. rewrite eqb_refl' in E. discriminate.
Qed.

Lemma set_absent (k : K) (v : V) (d : Dict.t K V) :
  ~ In k (keys d) -> set k v d = d ++ [(k, v)].
Proof.
  induction d as [|[k' v'] d IH]; simpl; [reflexivity|].
  intros H. destruct (eqb k k') eqn:E.
  - apply eqb_eq in E. subst. exfalso. auto.
  - f_equal. apply IH. auto.
Qed.

Lemma set_keys_In (k k0 : K) (v : V) (d : Dict.t K V) :
  In k0 (keys (set k v d)) <-> k0 = k \/ In k0 (keys d).
Proof.
  induction d as [|[k' v'] d IH]; simpl.
  - intuition.
  - destruct (eqb k k') eqn:E; simpl.
    + apply eqb_eq in E. subst. intuition.
    + rewrite IH. intuition.
Qed.

Lemma set_keys_NoDup (k : K) (v : V) (d : Dict.t K V) :
  NoDup (keys d) -> NoDup (keys (set k v d)).
Proof.
  induction d as [|[k' v'] d IH]; simpl; intros Hnd.
  - constructor; [simpl; tauto|constructor].
  - inversion Hnd as [|? ? Hnot Hnd']; subst.
    destruct (eqb k k') eqn:E; simpl.
    + constructor; assumption.
    + constructor; [|auto].
      rewrite set_keys_In. intros [H|H]; [|auto].
      subst. rewrite eqb_refl' in E. discriminate.
Qed.

(** A loop [for k, v in items: nd[k] = f(k, v)] over the items of a
    dictionary builds the dictionary entry by entry. *)
Lemma fold_set_items {W : Type} (f : K -> V -> W) (l : Dict.t K V)
      (acc : Dict.t K W) :
  NoDup (Dict.keys acc ++ keys l) ->
  fold_left (fun nd '(k, v) => Dict.set eqb k (f k v) nd) l acc
  = acc ++ map (fun '(k, v) => (k, f k v)) l.
Proof.
  revert acc. induction l as [|[k v] l IH]; intros acc Hnd; simpl.
  - rewrite app_nil_r. reflexivity.
  - assert (Hk : ~ In k (Dict.keys acc)).
    { apply NoDup_remove_2 in Hnd. intros H. apply Hnd.
      apply in_or_app. left. exact H. }
    assert (Hset : Dict.set eqb k (f k v) acc = acc ++ [(k, f k v)]).
    { clear IH Hnd. induction acc as [|[k' w'] acc IHa]; simpl; [reflexivity|].
      simpl in Hk. destruct (eqb k k') eqn:E.
      - apply eqb_eq in E. subst. exfalso. auto.
      - f_equal. apply IHa. auto. }
    rewrite Hset, IH.
    + rewrite <- app_assoc. reflexivity.
    + unfold Dict.keys in *. rewrite map_app, <- app_assoc. simpl.
      simpl in Hnd. exact Hnd.
Qed.
End DictFacts.

Lemma dget_dset_same (x : Var) (v : list string) d : dget x (dset x v d) = Some v.
Proof. apply get_set_same, Var_eqb_eq. Qed.

Lemma dget_dset_other (x z : Var) (v : list string) d :
  z <> x -> dget z (dset x v d) = dget z d.
Proof. apply get_set_other, Var_eqb_eq. Qed.

(** ** Node consistency *)

Lemma node_filter_In (val : Var) (domain : list string) (w : string) :
  In w (node_filter val domain)
  <-> In w domain /\ String.length w = var_length val.
Proof.
  unfold node_filter, py_set. rewrite nodup_In, filter_In, Nat.eqb_eq. tauto.
Qed.

(** On a dictionary (distinct keys) the loop of [enforce_node_consistency]
    rewrites every entry in place. *)
Lemma enforce_node_consistency_domains (s : CrosswordCreator) :
  NoDup (Dict.keys (domains s)) ->
  domains (enforce_node_consistency s)
  = map (fun '(val, domain) => (val, node_filter val domain)) (domains s).
Proof.
  intros Hnd. unfold enforce_node_consistency, Dict.items; simpl.
  exact (fold_set_items Var_eqb Var_eqb_eq node_filter (domains s) [] Hnd).
Qed.

Lemma dget_map_entries (f : Var -> list string -> list string) (x : Var) d :
  dget x (map (fun '(val, domain) => (val, f val domain)) d)
  = option_map (f x) (dget x d).
Proof.
  unfold dget. induction d as [|[k v] d IH]; simpl; [reflexivity|].
  destruct (Var_eqb x k) eqn:E; [|exact IH].
  apply Var_eqb_eq in E. subst. reflexivity.
Qed.

Lemma keys_map_entries (f : Var -> list string -> list string) d :
  Dict.keys (map (fun '(val, domain) => (val, f val domain)) d) = Dict.keys d.
Proof.
  unfold Dict.keys. rewrite map_map. apply map_ext. intros [k v]; reflexivity.
Qed.

(** C8: after [enforce_node_consistency] every word left in a slot's domain
    has exactly the slot's length; the crossword is untouched, the domain
    store keeps its slots, and each slot's new domain holds exactly the words
    of its previous domain that have the slot's length. *)
Theorem enforce_node_consistency_spec (s : CrosswordCreator) :
  NoDup (Dict.keys (domains s)) ->
  crossword (enforce_node_consistency s) = crossword s
  /\ Dict.keys (domains (enforce_node_consistency s)) = Dict.keys (domains s)
  /\ (forall var domain' word,
         dget var (domains (enforce_node_consistency s)) = Some domain' ->
         In word domain' -> String.length word = var_length var)
  /\ (forall var domain,
         dget var (domains s) = Some domain ->
         exists domain',
           dget var (domains (enforce_node_consistency s)) = Some domain'
           /\ forall word,
               In word domain'
               <-> In word domain /\ String.length word = var_length var).
Proof.
  intros Hnd. rewrite (enforce_node_consistency_domains s Hnd).
  split; [reflexivity|]. split; [apply keys_map_entries|]. split.
  - intros var domain' word Hget Hin.
    rewrite dget_map_entries in Hget.
    destruct (dget var (domains s)) as [domain|]; simpl in Hget; [|discriminate].
    injection Hget as <-. apply node_filter_In in Hin. tauto.
  - intros var domain Hget. exists (node_filter var domain). split.
    + rewrite dget_map_entries, Hget. reflexivity.
    + intros word. apply node_filter_In.
Qed.

Lemma enforce_node_consistency_spec_witness :
  NoDup (Dict.keys (domains (init Examples.crossword3)))
  /\ dget Examples.B (domains (enforce_node_consistency (init Examples.crossword3)))
     = Some ["co"%string; "to"%string]
  /\ crossword (enforce_node_consistency (init Examples.crossword3))
     = Examples.crossword3.
Proof.
  assert (Hnd : NoDup (Dict.keys (domains (init Examples.crossword3)))).
  { simpl. repeat constructor; simpl; intuition discriminate. }
  split; [exact Hnd|]. split; [reflexivity|].
  exact (proj1 (enforce_node_consistency_spec (init Examples.crossword3) Hnd)).
Defined.

(** ** [revise] *)

Lemma agreeb_agree (x_i y_i : nat) (w w' : string) :
  agreeb x_i y_i w w' = true <-> agree x_i y_i w w'.
Proof.
  unfold agreeb, agree.
  destruct (String.get x_i w) as [a|], (String.get y_i w') as [b|]; split;
    try discriminate; try (intros [ch [H1 H2]]; discriminate).
  - intros H. apply Ascii.eqb_eq in H. subst. eauto.
  - intros [ch [H1 H2]]. apply Ascii.eqb_eq. congruence.
Qed.

Lemma supported_In (x_i y_i : nat) (domain_y domain_x : list string) (w : string) :
  In w (supported x_i y_i domain_y domain_x)
  <-> In w domain_x /\ exists w', In w' domain_y /\ agree x_i y_i w w'.
Proof.
  unfold supported. rewrite filter_In, existsb_exists.
  split; intros [H [w' [H1 H2]]]; (split; [exact H|]); exists w'; split; auto;
    apply agreeb_agree; exact H2.
Qed.

Lemma compatible_words_Ok (word_x : string) (x_i y_i : nat) (domain_y l : list string) :
  compatible_words word_x x_i y_i domain_y = Ok l ->
  l = filter (agreeb x_i y_i word_x) domain_y.
Proof.
  revert l. induction domain_y as [|word_y rest IH]; simpl; intros l H.
  - congruence.
  - bind_ok H as a Ea. bind_ok H as b Eb. bind_ok H as tl Etl.
    apply or_raise_Ok in Ea, Eb. specialize (IH tl eq_refl).
    injection H as <-.
    assert (Hag : agreeb x_i y_i word_x word_y = Ascii.eqb a b)
      by (unfold agreeb; rewrite Ea, Eb; reflexivity).
    rewrite Hag. destruct (Ascii.eqb a b); rewrite IH; reflexivity.
Qed.

Lemma filter_nonempty_existsb {A : Type} (p : A -> bool) (l : list A) :
  negb (List.length (filter p l) =? 0) = existsb p l.
Proof.
  induction l as [|a l IH]; simpl; [reflexivity|].
  destruct (p a); simpl; [reflexivity|exact IH].
Qed.

Lemma revise_loop_Ok (x_i y_i : nat) (domain_y domain_x new_domain_x : list string) :
  revise_loop x_i y_i domain_y domain_x = Ok new_domain_x ->
  new_domain_x = supported x_i y_i domain_y domain_x.
Proof.
  revert new_domain_x. induction domain_x as [|word_x rest IH]; simpl; intros l H.
  - congruence.
  - bind_ok H as cw Ecw. bind_ok H as tl Etl.
    specialize (IH tl eq_refl). apply compatible_words_Ok in Ecw.
    injection H as <-. subst cw tl.
    rewrite filter_nonempty_existsb. reflexivity.
Qed.

(** What a returning call of [revise] has done: the inversion of its body. *)
Lemma revise_Ok (x y : Var) (s s' : CrosswordCreator) (changed : bool) :
  revise x y s = Ok (changed, s') ->
  exists domain_x domain_y x_i y_i,
    dget x (domains s) = Some domain_x
    /\ dget y (domains s) = Some domain_y
    /\ overlaps (crossword s) x y = Some (x_i, y_i)
    /\ s' = {| crossword := crossword s;
               domains := dset x (supported x_i y_i domain_y domain_x) (domains s) |}
    /\ changed = negb (List.length (supported x_i y_i domain_y domain_x)
                       =? List.length domain_x).
Proof.
  unfold revise. intros H.
  bind_ok H as domain_x Ex. bind_ok H as domain_y Ey.
  bind_ok H as [x_i y_i] Eo. bind_ok H as new El.
  apply or_raise_Ok in Ex, Ey, Eo. apply revise_loop_Ok in El. subst new.
  injection H as <- <-.
  exists domain_x, domain_y, x_i, y_i. repeat split; assumption.
Qed.

Lemma supported_length (x_i y_i : nat) (domain_y domain_x : list string) :
  List.length (supported x_i y_i domain_y domain_x) <= List.length domain_x.
Proof. apply filter_length_le. Qed.

(** C6: a call [revise(x, y)] that returns leaves in [x]'s domain exactly the
    words of the old domain that agree, at the overlap offsets of [(x, y)],
    with some word of [y]'s domain; the domain does not grow, and the flag
    returned is true exactly when it shrank. *)
Theorem revise_spec (x y : Var) (s s' : CrosswordCreator) (changed : bool)
    (domain_x domain_y : list string) (x_i y_i : nat) :
  dget x (domains s) = Some domain_x ->
  dget y (domains s) = Some domain_y ->
  overlaps (crossword s) x y = Some (x_i, y_i) ->
  revise x y s = Ok (changed, s') ->
  exists new_domain_x,
    dget x (domains s') = Some new_domain_x
    /\ new_domain_x
       = filter (fun w => existsb (agreeb x_i y_i w) domain_y) domain_x
    /\ (forall w, In w new_domain_x
                  <-> In w domain_x
                      /\ exists w', In w' domain_y /\ agree x_i y_i w w')
    /\ List.length new_domain_x <= List.length domain_x
    /\ (changed = true <-> List.length new_domain_x < List.length domain_x).
Proof.
  intros Hx Hy Ho Hr.
  destruct (revise_Ok x y s Hr) as (dx & dy & i & j & Hx' & Hy' & Ho' & -> & ->).
  rewrite Hx in Hx'. rewrite Hy in Hy'. rewrite Ho in Ho'.
  injection Hx' as <-. injection Hy' as <-. injection Ho' as <- <-.
  exists (supported x_i y_i domain_y domain_x). simpl.
  split; [apply dget_dset_same|]. split; [reflexivity|].
  split; [intros w; apply supported_In|].
  pose proof (supported_length x_i y_i domain_y domain_x) as Hle.
  split; [exact Hle|].
  rewrite negb_true_iff, Nat.eqb_neq. lia.
Qed.

Lemma revise_spec_witness :
  revise Examples.A Examples.B Examples.creator3
  = Ok (true, Examples.creator3_revised)
  /\ exists new_domain_x,
      dget Examples.A (domains Examples.creator3_revised) = Some new_domain_x
      /\ new_domain_x
         = filter (fun w => existsb (agreeb 0 0 w) ["co"; "to"]%string)
                  ["cat"; "dog"]%string
      /\ (forall w, In w new_domain_x
                    <-> In w ["cat"; "dog"]%string
                        /\ exists w', In w' ["co"; "to"]%string /\ agree 0 0 w w')
      /\ List.length new_domain_x <= 2
      /\ (true = true <-> List.length new_domain_x < 2).
Proof.
  split; [reflexivity|].
  apply (@revise_spec Examples.A Examples.B Examples.creator3
           Examples.creator3_revised true
           ["cat"; "dog"]%string ["co"; "to"]%string 0 0); reflexivity.
Defined.

Lemma get_in_range (w : string) (n : nat) :
  n < String.length w -> exists ch, String.get n w = Some ch.
Proof.
  revert n. induction w as [|c w IH]; simpl; intros n Hn; [lia|].
  destruct n; [eauto|]. apply IH. lia.
Qed.

Lemma compatible_words_defined (word_x : string) (x_i y_i : nat) (domain_y : list string) :
  x_i < String.length word_x ->
  (forall w, In w domain_y -> y_i < String.length w) ->
  exists l, compatible_words word_x x_i y_i domain_y = Ok l.
Proof.
  intros Hx. induction domain_y as [|word_y rest IH]; simpl; intros Hy.
  - eauto.
  - unfold getitem.
    destruct (get_in_range word_x Hx) as [a ->].
    destruct (get_in_range word_y (Hy word_y (or_introl eq_refl))) as [b ->].
    simpl.
    destruct IH as [tl ->]; [intros w Hw; apply Hy; right; exact Hw|].
    simpl. eauto.
Qed.

Lemma revise_loop_defined (x_i y_i : nat) (domain_y domain_x : list string) :
  (forall w, In w domain_x -> x_i < String.length w) ->
  (forall w, In w domain_y -> y_i < String.length w) ->
  exists l, revise_loop x_i y_i domain_y domain_x = Ok l.
Proof.
  intros Hx Hy. induction domain_x as [|word_x rest IH]; simpl.
  - eauto.
  - destruct (@compatible_words_defined word_x x_i y_i domain_y) as [cw ->];
      [apply Hx; left; reflexivity|exact Hy|].
    simpl. destruct IH as [tl ->]; [intros w Hw; apply Hx; right; exact Hw|].
    simpl. eauto.
Qed.

(** [revise] returns whenever both slots have a domain, the pair has an
    overlap entry, and the words are long enough for the offsets. *)
Lemma revise_defined (x y : Var) (s : CrosswordCreator)
    (domain_x domain_y : list string) (x_i y_i : nat) :
  dget x (domains s) = Some domain_x ->
  dget y (domains s) = Some domain_y ->
  overlaps (crossword s) x y = Some (x_i, y_i) ->
  (forall w, In w domain_x -> x_i < String.length w) ->
  (forall w, In w domain_y -> y_i < String.length w) ->
  exists changed s', revise x y s = Ok (changed, s').
Proof.
  intros Hx Hy Ho Hlx Hly. unfold revise. rewrite Hx, Hy, Ho. simpl.
  destruct (@revise_loop_defined x_i y_i domain_y domain_x Hlx Hly) as [l ->].
  simpl. eauto.
Qed.

(** C10: a call [revise(x, y)] that returns has changed nothing but the
    entry of [x] in the domain store: the crossword (slots, overlaps,
    neighbors) is the same, the store has the same slots in the same order,
    every slot other than [x] has the domain it had, and so has [y], a
    neighbor being a slot other than [x]. *)
Theorem revise_frame (x y : Var) (s s' : CrosswordCreator) (changed : bool) :
  revise x y s = Ok (changed, s') ->
  crossword s' = crossword s
  /\ Dict.keys (domains s') = Dict.keys (domains s)
  /\ (forall z, z <> x -> dget z (domains s') = dget z (domains s))
  /\ (y <> x -> dget y (domains s') = dget y (domains s)).
Proof.
  intros Hr.
  destruct (revise_Ok x y s Hr) as (dx & dy & i & j & Hx & Hy & Ho & -> & _).
  simpl. split; [reflexivity|]. split.
  - apply set_present_keys; [exact Var_eqb_eq|].
    apply (mem_keys Var_eqb Var_eqb_eq). unfold Dict.mem.
    unfold dget in Hx. rewrite Hx. reflexivity.
  - split; intros; apply dget_dset_other; assumption.
Qed.

Lemma revise_frame_witness :
  revise Examples.A Examples.B Examples.creator3
  = Ok (true, Examples.creator3_revised)
  /\ crossword Examples.creator3_revised = crossword Examples.creator3
  /\ dget Examples.B (domains Examples.creator3_revised)
     = Some ["co"; "to"]%string.
Proof.
  split; [reflexivity|].
  pose (H := @revise_frame Examples.A Examples.B Examples.creator3
               Examples.creator3_revised true eq_refl).
  split; [exact (proj1 H)|reflexivity].
Defined.

(** ** [ac3]: termination *)

Lemma total_size_dset (x : Var) (new domain_x : list string) d :
  dget x d = Some domain_x ->
  total_size (dset x new d) + List.length domain_x
  = total_size d + List.length new.
Proof.
  unfold dget, dset, total_size.
  induction d as [|[k v] d IH]; simpl; [discriminate|].
  destruct (Var_eqb x k) eqn:E; simpl.
  - intros [= ->]. lia.
  - intros H. specialize (IH H). lia.
Qed.

Lemma max_push_bound (c : Crossword) (queue : list Arc) (a : Arc) :
  In a queue -> List.length (neighbors c (fst a)) <= max_push c queue.
Proof.
  intros H. unfold max_push.
  assert (Hall : Forall (fun k => k <= list_max
                   (map (fun a => List.length (neighbors c (fst a))) queue))
                 (map (fun a => List.length (neighbors c (fst a))) queue)).
  { apply list_max_le. lia. }
  rewrite Forall_forall in Hall. apply Hall.
  apply (in_map (fun a => List.length (neighbors c (fst a)))). exact H.
Qed.

Lemma arcs_from_length (c : Crossword) (x : Var) :
  List.length (arcs_from c x) = List.length (neighbors c x).
Proof. unfold arcs_from. apply length_map. Qed.

Lemma arcs_from_fst (c : Crossword) (x : Var) (a : Arc) :
  In a (arcs_from c x) -> fst a = x.
Proof.
  unfold arcs_from. rewrite in_map_iff. intros [n [<- _]]. reflexivity.
Qed.

(** The variant of the loop: arcs waiting, plus what the words still in the
    store could make it push. *)
Lemma ac3_loop_terminates (K fuel : nat) :
  forall (s : CrosswordCreator) (queue : list Arc),
    (forall a, In a queue -> List.length (neighbors (crossword s) (fst a)) <= K) ->
    List.length queue + total_size (domains s) * K <= fuel ->
    exists r, ac3_loop fuel s queue = Some r.
Proof.
  induction fuel as [|fuel IH]; intros s queue HK Hfuel.
  - destruct queue as [|a queue]; simpl in *; [eauto|lia].
  - destruct queue as [|[x y] queue]; simpl; [eauto|].
    destruct (revise x y s) as [[changed s']|e] eqn:Hr; [|eauto].
    destruct (revise_Ok x y s Hr) as (dx & dy & i & j & Hx & _ & _ & -> & ->).
    pose proof (supported_length i j dy dx) as Hle.
    pose proof (total_size_dset x (supported i j dy dx) (domains s) Hx) as Hts.
    simpl in Hfuel.
    destruct (List.length (supported i j dy dx) =? List.length dx) eqn:E; simpl.
    + apply Nat.eqb_eq in E. apply IH.
      * intros a Ha. apply HK. right. exact Ha.
      * simpl. rewrite E in Hts.
        assert (total_size (dset x (supported i j dy dx) (domains s))
                = total_size (domains s)) as -> by lia.
        lia.
    + apply Nat.eqb_neq in E. rewrite dget_dset_same.
      destruct (List.length (supported i j dy dx) =? 0); [eauto|].
      apply IH.
      * intros a Ha. apply in_app_or in Ha. destruct Ha as [Ha|Ha].
        -- apply HK. right. exact Ha.
        -- simpl. rewrite (arcs_from_fst _ _ _ Ha).
           apply (HK (x, y)). left. reflexivity.
      * simpl. rewrite length_app, arcs_from_length.
        assert (HKx : List.length (neighbors (crossword s) x) <= K).
        { apply (HK (x, y)). left. reflexivity. }
        assert (Hlt : total_size (dset x (supported i j dy dx) (domains s)) + 1
                      <= total_size (domains s)) by lia.
        assert (Hmul : total_size (dset x (supported i j dy dx) (domains s)) * K + K
                       <= total_size (domains s) * K).
        { replace (total_size (dset x (supported i j dy dx) (domains s)) * K + K)
            with ((total_size (dset x (supported i j dy dx) (domains s)) + 1) * K)
            by lia.
          apply Nat.mul_le_mono_r. exact Hlt. }
        lia.
Qed.

(** More fuel does not change a result. *)
Lemma ac3_loop_more_fuel (fuel : nat) :
  forall (s : CrosswordCreator) (queue : list Arc) r fuel',
    ac3_loop fuel s queue = Some r -> fuel <= fuel' ->
    ac3_loop fuel' s queue = Some r.
Proof.
  induction fuel as [|fuel IH]; intros s queue r fuel' H Hle.
  - destruct queue as [|[x y] queue]; simpl in H; [|discriminate].
    destruct fuel'; exact H.
  - destruct queue as [|[x y] queue]; [destruct fuel'; exact H|].
    destruct fuel' as [|fuel']; [lia|]. simpl in *.
    destruct (revise x y s) as [[[|] s']|e]; try exact H.
    + destruct (dget x (domains s')) as [d|]; [|exact H].
      destruct (List.length d =? 0); [exact H|].
      apply IH; [exact H|lia].
    + apply IH; [exact H|lia].
Qed.

Lemma ac3_result (arcs : option (list Arc)) (s : CrosswordCreator) :
  exists r, ac3 arcs s = Some r.
Proof.
  unfold ac3.
  apply (@ac3_loop_terminates
           (max_push (crossword s) (initial_queue arcs s))).
  - intros a Ha. apply max_push_bound. exact Ha.
  - unfold ac3_fuel. lia.
Qed.

(** C9: [ac3] terminates on every input.  Every iteration pops an arc, and
    arcs are pushed only by an iteration that removes a word from a domain,
    so the loop runs at most [ac3_fuel s queue] times: with that many
    iterations allowed, or more, it ends with a result (a signal and a domain
    store, or an exception), and the result does not depend on the number
    allowed. *)
Theorem ac3_terminates (arcs : option (list Arc)) (s : CrosswordCreator) :
  exists r,
    ac3 arcs s = Some r
    /\ forall fuel,
        ac3_fuel s (initial_queue arcs s) <= fuel ->
        ac3_loop fuel s (initial_queue arcs s) = Some r.
Proof.
  destruct (ac3_result arcs s) as [r Hr].
  exists r. split; [exact Hr|].
  intros fuel Hle. exact (@ac3_loop_more_fuel _ _ _ _ _ Hr Hle).
Qed.

(** ** [ac3]: one iteration, and the signal *)

Lemma length_zero_nil {A : Type} (l : list A) : (List.length l =? 0) = true <-> l = [].
Proof. destruct l; simpl; split; congruence. Qed.



(** A domain that is empty before the call of [revise] is not a revision:
    on a store whose domains are all empty, [revise(A, B)] reports no change
    and [ac3] goes on to signal success. *)
Example ac3_loop_empty_unnoticed :
  revise Examples.A Examples.B Examples.creator0 = Ok (false, Examples.creator0)
  /\ dget Examples.A (domains Examples.creator0) = Some []
  /\ ac3_loop 1 Examples.creator0 [(Examples.A, Examples.B)]
     = Some (Ok (true, Examples.creator0)).
Proof. repeat split. Qed.

(** C3 at a crossword whose only slot has no word of its length: [ac3]
    signals success although the domain of the slot is empty. *)
Theorem ac3_True_empty_domain :
  exists s',
    ac3 None Examples.creator1 = Some (Ok (true, s'))
    /\ dget Examples.A (domains s') = Some [].
Proof. eexists. split; reflexivity. Qed.

(** What the signal does guarantee: a domain store without an empty domain
    on entry has none when [ac3] signals success. *)
Lemma ac3_loop_True_nonempty (fuel : nat) :
  forall (s s' : CrosswordCreator) (queue : list Arc),
    (forall v d, dget v (domains s) = Some d -> d <> []) ->
    ac3_loop fuel s queue = Some (Ok (true, s')) ->
    forall v d, dget v (domains s') = Some d -> d <> [].
Proof.
  induction fuel as [|fuel IH]; intros s s' queue Hne H.
  - destruct queue as [|[x y] queue]; simpl in H; [|discriminate].
    injection H as <-. exact Hne.
  - destruct queue as [|[x y] queue]; simpl in H.
    + injection H as <-. exact Hne.
    + destruct (revise x y s) as [[changed s1]|e] eqn:Hr; [|discriminate].
      destruct (revise_Ok x y s Hr) as (dx & dy & i & j & Hx & _ & _ & Hs1 & Hch).
      destruct changed.
      * destruct (dget x (domains s1)) as [d1|] eqn:Hd1; [|discriminate].
        destruct (List.length d1 =? 0) eqn:E; [discriminate|].
        refine (IH s1 s' _ _ H).
        intros v d Hv. destruct (Var_eqb v x) eqn:Evx.
        -- apply Var_eqb_eq in Evx. subst v. rewrite Hd1 in Hv.
           injection Hv as <-. intros Hnil. subst d1. discriminate.
        -- apply Var_eqb_neq in Evx. subst s1. simpl in Hv.
           rewrite dget_dset_other in Hv by exact Evx. eauto.
      * refine (IH s1 s' _ _ H).
        symmetry in Hch. apply negb_false_iff, Nat.eqb_eq in Hch.
        intros v d Hv. destruct (Var_eqb v x) eqn:Evx.
        -- apply Var_eqb_eq in Evx. subst v s1. simpl in Hv.
           rewrite dget_dset_same in Hv. injection Hv as <-.
           intros Hnil. rewrite Hnil in Hch. simpl in Hch.
           destruct dx; [|discriminate]. exact (Hne x [] Hx eq_refl).
        -- apply Var_eqb_neq in Evx. subst s1. simpl in Hv.
           rewrite dget_dset_other in Hv by exact Evx. eauto.
Qed.

(** ** [consistent] *)

Lemma consistent_empty (s : CrosswordCreator) : consistent s [] = Ok true.
Proof. reflexivity. Qed.

Lemma consistent_single_no_neighbors (s : CrosswordCreator) (var : Var) (word : string) :
  String.length word = var_length var ->
  neighbors (crossword s) var = [] ->
  consistent s [(var, Some word)] = Ok true.
Proof.
  intros Hlen Hn. unfold consistent; simpl.
  rewrite Hlen, Nat.eqb_refl, Hn. reflexivity.
Qed.

(** The lookup [assignment[neighbor]] of the first neighbor that has no entry
    ends the scan of the neighbors with a KeyError. *)
Lemma check_neighbors_KeyError (c : Crossword) (a : Assignment) (var : Var)
    (word : pyword) (n : Var) (ns : list Var) :
  aget n a = None -> check_neighbors c a var word (n :: ns) = Raise KeyError.
Proof. intros H. simpl. rewrite H. reflexivity. Qed.

(** C1 at a partial assignment: [consistent] does not skip a neighbor that
    has no entry in the assignment, it raises KeyError.  Here the first
    entry of the assignment has a word of the right length and its first
    neighbor is unassigned. *)
Theorem consistent_unassigned_neighbor (s : CrosswordCreator) (var n : Var)
    (word : string) (rest : Assignment) (ns : list Var) :
  String.length word = var_length var ->
  neighbors (crossword s) var = n :: ns ->
  aget n ((var, Some word) :: rest) = None ->
  consistent s ((var, Some word) :: rest) = Raise KeyError.
Proof.
  intros Hlen Hn Hget. unfold consistent, Dict.items.
  cbn [consistent_loop existsb len bind].
  rewrite Hlen, Nat.eqb_refl. cbn [negb].
  rewrite Hn, check_neighbors_KeyError by exact Hget. reflexivity.
Qed.

Lemma consistent_unassigned_neighbor_witness :
  consistent Examples.creator3
    [(Examples.A, Some "cat"%string); (Examples.C, Some "to"%string)]
  = Raise KeyError.
Proof.
  apply (@consistent_unassigned_neighbor Examples.creator3 Examples.A Examples.B
           "cat"%string [(Examples.C, Some "to"%string)] [Examples.C]);
    reflexivity.
Defined.

(** C4 at a slot with a neighbor: for the assignment of a word of the right
    length to that slot alone, [consistent] does not return true, it raises
    KeyError. *)
Theorem consistent_single_with_neighbor (s : CrosswordCreator) (var n : Var)
    (word : string) (ns : list Var) :
  String.length word = var_length var ->
  neighbors (crossword s) var = n :: ns ->
  n <> var ->
  consistent s [(var, Some word)] = Raise KeyError.
Proof.
  intros Hlen Hn Hne. unfold consistent, Dict.items.
  cbn [consistent_loop existsb len bind].
  rewrite Hlen, Nat.eqb_refl. cbn [negb].
  rewrite Hn, check_neighbors_KeyError; [reflexivity|].
  unfold aget; simpl. apply Var_eqb_neq in Hne. rewrite Hne. reflexivity.
Qed.

Lemma consistent_single_with_neighbor_witness :
  consistent Examples.creator3 [(Examples.A, Some "cat"%string)] = Raise KeyError.
Proof.
  apply (@consistent_single_with_neighbor Examples.creator3 Examples.A Examples.B
           "cat"%string [Examples.C]); [reflexivity|reflexivity|discriminate].
Defined.

(** ** Comprehensions and [min] *)

Lemma list_comp_In {A : Type} (p : A -> res bool) (l l' : list A) :
  list_comp p l = Ok l' ->
  forall x, In x l' <-> In x l /\ p x = Ok true.
Proof.
  revert l'. induction l as [|a l IH]; simpl; intros l' H x.
  - injection H as <-. simpl. tauto.
  - destruct (p a) as [b|e] eqn:Ea; simpl in H; [|discriminate].
    destruct (list_comp p l) as [tl|e]; simpl in H; [|discriminate].
    injection H as <-. specialize (IH tl eq_refl x).
    destruct b; simpl; rewrite IH; intuition (subst; auto; congruence).
Qed.

Lemma list_comp_defined {A : Type} (p : A -> res bool) (l : list A) :
  (forall x, In x l -> exists b, p x = Ok b) ->
  exists l', list_comp p l = Ok l'.
Proof.
  induction l as [|a l IH]; simpl; intros H; [eauto|].
  destruct (H a (or_introl eq_refl)) as [b ->]. simpl.
  destruct IH as [tl ->]; [intros x Hx; apply H; right; exact Hx|].
  simpl. eauto.
Qed.

Lemma fold_min_spec (l : list nat) (x : nat) :
  (fold_left Nat.min l x = x \/ In (fold_left Nat.min l x) l)
  /\ fold_left Nat.min l x <= x
  /\ forall n, In n l -> fold_left Nat.min l x <= n.
Proof.
  revert x. induction l as [|a l IH]; simpl; intros x.
  - split; [left; reflexivity|]. split; [lia|tauto].
  - destruct (IH (Nat.min x a)) as (Hin & Hle & Hall).
    split; [|split].
    + destruct Hin as [Hin|Hin]; [|right; right; exact Hin].
      rewrite Hin. destruct (Nat.min_spec x a) as [[_ ->]|[_ ->]]; auto.
    + lia.
    + intros n [<-|Hn]; [lia|auto].
Qed.

Lemma py_min_spec (l : list nat) (m : nat) :
  py_min l = Ok m -> In m l /\ forall n, In n l -> m <= n.
Proof.
  destruct l as [|x l]; simpl; [discriminate|]. intros [= <-].
  destruct (fold_min_spec l x) as (Hin & Hle & Hall).
  split.
  - destruct Hin as [->|Hin]; auto.
  - intros n [<-|Hn]; auto.
Qed.

Lemma py_min_defined (l : list nat) : l <> [] -> exists m, py_min l = Ok m.
Proof. destruct l; [congruence|]. simpl. eauto. Qed.

Section DictComp.
Context {V : Type} (f : Var -> res V).

Lemma dict_comp_spec (l : list Var) :
  forall (acc d : Dict.t Var V),
    dict_comp Var_eqb f l acc = Ok d ->
    (forall k, In k l -> exists v, f k = Ok v /\ Dict.get Var_eqb k d = Some v)
    /\ (forall k, ~ In k l -> Dict.get Var_eqb k d = Dict.get Var_eqb k acc)
    /\ (forall k, In k (Dict.keys d) <-> In k l \/ In k (Dict.keys acc))
    /\ (NoDup (Dict.keys acc) -> NoDup (Dict.keys d)).
Proof.
  induction l as [|a l IH]; simpl; intros acc d H.
  - injection H as <-. repeat split; try tauto.
  - destruct (f a) as [v|e] eqn:Ea; simpl in H; [|discriminate].
    destruct (IH _ _ H) as (Hin & Hout & Hkeys & Hnd).
    split; [|split; [|split]].
    + intros k [<-|Hk]; [|auto].
      destruct (in_dec Var_eq_dec a l) as [Hal|Hal].
      * destruct (Hin a Hal) as [v' [Hv' Hg]]. exists v'. auto.
      * exists v. split; [exact Ea|].
        rewrite (Hout a Hal). apply get_set_same, Var_eqb_eq.
    + intros k Hk. rewrite Hout by tauto.
      apply get_set_other; [exact Var_eqb_eq|]. intros ->. tauto.
    + intros k. rewrite Hkeys, (@set_keys_In _ _ Var_eqb Var_eqb_eq). intuition.
    + intros H0. apply Hnd. apply set_keys_NoDup; [exact Var_eqb_eq|exact H0].
Qed.

Lemma dict_comp_defined (l : list Var) :
  forall acc : Dict.t Var V,
    (forall k, In k l -> exists v, f k = Ok v) ->
    exists d, dict_comp Var_eqb f l acc = Ok d.
Proof.
  induction l as [|a l IH]; simpl; intros acc H; [eauto|].
  destruct (H a (or_introl eq_refl)) as [v ->]. simpl.
  apply IH. intros k Hk. apply H. right. exact Hk.
Qed.

(** The values of a comprehension are values of [f] on the list. *)
Lemma dict_comp_values (l : list Var) (d : Dict.t Var V) (v : V) :
  dict_comp Var_eqb f l [] = Ok d ->
  In v (Dict.values d) -> exists k, In k l /\ f k = Ok v.
Proof.
  intros H Hv. destruct (dict_comp_spec l [] H) as (Hin & _ & Hkeys & Hnd).
  unfold Dict.values in Hv. apply in_map_iff in Hv.
  destruct Hv as [[k v'] [Hsnd Hkv]]. simpl in Hsnd. subst v'.
  assert (Hg : Dict.get Var_eqb k d = Some v).
  { apply In_get_NoDup; [exact Var_eqb_eq| |exact Hkv].
    apply Hnd. constructor. }
  assert (Hk : In k l).
  { assert (Hk' : In k (Dict.keys d)) by (apply (in_map fst) in Hkv; exact Hkv).
    apply Hkeys in Hk'. destruct Hk' as [Hk'|[]]. exact Hk'. }
  destruct (Hin k Hk) as [v' [Hf Hg']].
  exists k. split; [exact Hk|]. congruence.
Qed.
End DictComp.

Lemma nonempty_In {A : Type} (l : list A) : l <> [] -> exists x, In x l.
Proof. destruct l as [|a l]; [congruence|]. intros _. exists a. left. reflexivity. Qed.

Section Argmin.
Variable h : Var -> nat.
Variable table : Dict.t Var nat.
Variable vars : list Var.
Hypothesis table_get : forall v, In v vars -> Dict.get Var_eqb v table = Some (h v).
Hypothesis table_values :
  forall n, In n (Dict.values table) -> exists v, In v vars /\ h v = n.

Lemma table_value_In (v : Var) : In v vars -> In (h v) (Dict.values table).
Proof.
  intros Hv. apply table_get in Hv.
  apply (get_Some_In Var_eqb Var_eqb_eq) in Hv.
  apply (in_map snd) in Hv. exact Hv.
Qed.

Lemma argmin_comp_In (l' : list Var) :
  argmin_comp table vars = Ok l' ->
  forall x, In x l' <-> In x vars /\ forall v, In v vars -> h x <= h v.
Proof.
  intros H x. unfold argmin_comp in H. rewrite (list_comp_In _ _ H).
  split; intros [Hx Hp]; (split; [exact Hx|]).
  - rewrite (table_get _ Hx) in Hp. simpl in Hp.
    destruct (py_min (Dict.values table)) as [m|e] eqn:Em; simpl in Hp;
      [|discriminate].
    injection Hp as Hp. apply Nat.eqb_eq in Hp. subst m.
    intros v Hv. apply (py_min_spec _ Em). apply table_value_In. exact Hv.
  - rewrite (table_get _ Hx). simpl.
    destruct (py_min_defined (l := Dict.values table)) as [m Em].
    { intros Hnil. pose proof (table_value_In _ Hx) as Hin.
      rewrite Hnil in Hin. exact Hin. }
    rewrite Em. simpl. f_equal. apply Nat.eqb_eq.
    destruct (py_min_spec _ Em) as [Hin Hmin].
    destruct (table_values _ Hin) as [v0 [Hv0 Hh]].
    specialize (Hp v0 Hv0). specialize (Hmin _ (table_value_In _ Hx)). lia.
Qed.

Lemma argmin_comp_defined : exists l', argmin_comp table vars = Ok l'.
Proof.
  unfold argmin_comp. apply list_comp_defined. intros x Hx.
  rewrite (table_get _ Hx). simpl.
  destruct (py_min_defined (l := Dict.values table)) as [m Em].
  { intros Hnil. pose proof (table_value_In _ Hx) as Hin.
    rewrite Hnil in Hin. exact Hin. }
  rewrite Em. simpl. eauto.
Qed.

Lemma argmin_comp_nonempty (l' : list Var) :
  argmin_comp table vars = Ok l' -> vars <> [] -> l' <> [].
Proof.
  intros H Hne. destruct (nonempty_In Hne) as [x0 Hx0].
  destruct (py_min_defined (l := Dict.values table)) as [m Em].
  { intros Hnil. pose proof (table_value_In _ Hx0) as Hin.
    rewrite Hnil in Hin. exact Hin. }
  destruct (py_min_spec _ Em) as [Hin Hmin].
  destruct (table_values _ Hin) as [v0 [Hv0 Hh]].
  assert (Hv : In v0 l').
  { apply (argmin_comp_In H). split; [exact Hv0|].
    intros v Hv. rewrite Hh. apply Hmin. apply table_value_In. exact Hv. }
  intros Hnil. rewrite Hnil in Hv. exact Hv.
Qed.
End Argmin.

Lemma random_choice_In {A : Type} (seq : list A) (g g' : rng) (x : A) :
  random_choice seq g = Ok (x, g') -> In x seq.
Proof.
  unfold random_choice. destruct seq as [|a seq]; [discriminate|].
  destruct (nth_error (a :: seq) (g 0 mod List.length (a :: seq))) as [y|] eqn:E;
    simpl; [|discriminate].
  intros [= <- _]. apply nth_error_In in E. exact E.
Qed.

Lemma random_choice_defined {A : Type} (seq : list A) (g : rng) :
  seq <> [] -> exists x g', random_choice seq g = Ok (x, g').
Proof.
  intros Hne. unfold random_choice. destruct seq as [|a seq]; [congruence|].
  destruct (nth_error (a :: seq) (g 0 mod List.length (a :: seq))) as [y|] eqn:E.
  - simpl. eauto.
  - apply nth_error_None in E.
    pose proof (Nat.mod_upper_bound (g 0) (List.length (a :: seq))) as Hb.
    simpl in *. lia.
Qed.

(** ** [select_unassigned_variable] *)

Lemma number_of_values_table (s : CrosswordCreator) (vars : list Var)
    (table : Dict.t Var nat) :
  dict_comp Var_eqb
    (fun variable =>
       d <- or_raise KeyError (dget variable (domains s)) ;; Ok (List.length d))
    vars [] = Ok table ->
  (forall v, In v vars -> Dict.get Var_eqb v table = Some (domain_size s v))
  /\ (forall n, In n (Dict.values table) ->
                exists v, In v vars /\ domain_size s v = n)
  /\ (forall v, In v vars -> dget v (domains s) <> None).
Proof.
  intros H. pose proof (dict_comp_spec _ _ _ H) as (Hin & _).
  assert (Hf : forall k n,
             (d <- or_raise KeyError (dget k (domains s)) ;; Ok (List.length d))
             = Ok n ->
             dget k (domains s) <> None /\ domain_size s k = n).
  { intros k n Hk. unfold domain_size.
    destruct (dget k (domains s)) as [d|]; simpl in Hk; [|discriminate].
    injection Hk as <-. split; [discriminate|reflexivity]. }
  split; [|split].
  - intros v Hv. destruct (Hin v Hv) as [n [Hn Hg]].
    apply Hf in Hn. destruct Hn as [_ <-]. exact Hg.
  - intros n Hn. destruct (dict_comp_values _ _ n H Hn) as [k [Hk Hfk]].
    exists k. split; [exact Hk|]. apply Hf in Hfk. tauto.
  - intros v Hv. destruct (Hin v Hv) as [n [Hn _]]. apply Hf in Hn. tauto.
Qed.

Lemma degree_table (c : Crossword) (vars : list Var) (table : Dict.t Var nat) :
  dict_comp Var_eqb
    (fun variable => Ok (List.length (neighbors c variable))) vars [] = Ok table ->
  (forall v, In v vars -> Dict.get Var_eqb v table = Some (degree c v))
  /\ (forall n, In n (Dict.values table) -> exists v, In v vars /\ degree c v = n).
Proof.
  intros H. pose proof (dict_comp_spec _ _ _ H) as (Hin & _). split.
  - intros v Hv. destruct (Hin v Hv) as [n [Hn Hg]].
    injection Hn as <-. exact Hg.
  - intros n Hn. destruct (dict_comp_values _ _ n H Hn) as [k [Hk Hfk]].
    exists k. split; [exact Hk|]. injection Hfk as <-. reflexivity.
Qed.

(** What a returning call of [select_unassigned_variable] has computed. *)
Lemma select_unassigned_variable_Ok (s : CrosswordCreator) (a : Assignment)
    (g g' : rng) (v : Var) :
  select_unassigned_variable s a g = Ok (v, g') ->
  exists mrv,
    (forall x, In x mrv
               <-> In x (unassigned s a)
                   /\ forall u, In u (unassigned s a) ->
                                domain_size s x <= domain_size s u)
    /\ ((List.length (unassigned s a) = 1 /\ nth_error mrv 0 = Some v /\ g' = g)
        \/ (List.length (unassigned s a) <> 1
            /\ exists md,
                (forall x, In x md
                           <-> In x mrv
                               /\ forall u, In u mrv ->
                                            degree (crossword s) x
                                            <= degree (crossword s) u)
                /\ random_choice md g = Ok (v, g'))).
Proof.
  unfold select_unassigned_variable. intros H.
  bind_ok H as number En.
  apply number_of_values_table in En. destruct En as (Hget & Hvals & _).
  bind_ok H as mrv Emrv.
  exists mrv. split; [exact (argmin_comp_In _ _ _ Hget Hvals Emrv)|].
  destruct (List.length (unassigned s a) =? 1) eqn:E1.
  - apply Nat.eqb_eq in E1. left.
    destruct mrv as [|v0 mrv0]; simpl in H; [discriminate|].
    injection H as Hv Hg. subst v0 g'. auto.
  - apply Nat.eqb_neq in E1. right. split; [exact E1|].
    bind_ok H as dtable Ed.
    apply degree_table in Ed. destruct Ed as (Hdget & Hdvals).
    bind_ok H as md Emd.
    exists md. split; [exact (argmin_comp_In _ _ _ Hdget Hdvals Emd)|exact H].
Qed.

(** The slot selected is unassigned, has the fewest remaining values among
    the unassigned slots and, when more than one slot is unassigned, the
    fewest neighbors among the unassigned slots with that many values. *)
Lemma select_unassigned_variable_spec (s : CrosswordCreator) (a : Assignment)
    (g g' : rng) (v : Var) :
  select_unassigned_variable s a g = Ok (v, g') ->
  In v (unassigned s a)
  /\ (forall u, In u (unassigned s a) -> domain_size s v <= domain_size s u)
  /\ (List.length (unassigned s a) <> 1 ->
      forall u, In u (unassigned s a) ->
                domain_size s u = domain_size s v ->
                degree (crossword s) v <= degree (crossword s) u).
Proof.
  intros H. apply select_unassigned_variable_Ok in H.
  destruct H as (mrv & Hmrv & Hcase).
  destruct Hcase as [(H1 & Hnth & _)|(H1 & md & Hmd & Hch)].
  - apply nth_error_In, Hmrv in Hnth. destruct Hnth as [Hin Hmin].
    split; [exact Hin|]. split; [exact Hmin|]. intros Hne. contradiction.
  - apply random_choice_In, Hmd in Hch. destruct Hch as [Hvm Hdeg].
    apply Hmrv in Hvm. destruct Hvm as [Hin Hmin].
    split; [exact Hin|]. split; [exact Hmin|].
    intros _ u Hu Hsz. apply Hdeg. apply Hmrv. split; [exact Hu|].
    intros w Hw. rewrite Hsz. apply Hmin. exact Hw.
Qed.

(** [select_unassigned_variable] returns a slot whenever a slot is
    unassigned and every unassigned slot has a domain. *)
Lemma select_unassigned_variable_defined (s : CrosswordCreator) (a : Assignment)
    (g : rng) :
  unassigned s a <> [] ->
  (forall v, In v (unassigned s a) -> dget v (domains s) <> None) ->
  exists v g', select_unassigned_variable s a g = Ok (v, g').
Proof.
  intros Hne Hdom. unfold select_unassigned_variable.
  destruct (dict_comp_defined
              (fun variable =>
                 d <- or_raise KeyError (dget variable (domains s)) ;;
                 Ok (List.length d)) (unassigned s a) []) as [number En].
  { intros k Hk. specialize (Hdom k Hk).
    destruct (dget k (domains s)); [simpl; eauto|congruence]. }
  rewrite En. simpl.
  apply number_of_values_table in En. destruct En as (Hget & Hvals & _).
  destruct (argmin_comp_defined _ _ _ Hget) as [mrv Emrv].
  rewrite Emrv. simpl.
  pose proof (argmin_comp_nonempty _ _ Hget Hvals Emrv Hne) as Hmrv.
  destruct (List.length (unassigned s a) =? 1).
  - destruct mrv as [|v0 mrv]; [congruence|]. simpl. eauto.
  - destruct (dict_comp_defined
                (fun variable =>
                   Ok (List.length (neighbors (crossword s) variable))) mrv [])
      as [dtable Ed]; [eauto|].
    rewrite Ed. simpl.
    apply degree_table in Ed. destruct Ed as (Hdget & Hdvals).
    destruct (argmin_comp_defined _ _ _ Hdget) as [md Emd].
    rewrite Emd. simpl.
    apply random_choice_defined.
    exact (argmin_comp_nonempty _ _ Hdget Hdvals Emd Hmrv).
Qed.

(** C2 at the three-slot crossword with nothing assigned: the three slots
    have two words each, slot [A] has two neighbors and slots [B] and [C]
    have one.  Whatever the random draw, the slot selected is [B] or [C], a
    slot of the lowest degree among the tied slots, not the slot of the
    highest degree. *)
Theorem select_unassigned_variable_lowest_degree (g : rng) :
  exists v g',
    select_unassigned_variable Examples.creator3 [] g = Ok (v, g')
    /\ (v = Examples.B \/ v = Examples.C)
    /\ In Examples.A (unassigned Examples.creator3 [])
    /\ domain_size Examples.creator3 Examples.A = domain_size Examples.creator3 v
    /\ degree Examples.crossword3 v = 1
    /\ degree Examples.crossword3 Examples.A = 2.
Proof.
  assert (Hsel : select_unassigned_variable Examples.creator3 [] g
                 = random_choice [Examples.B; Examples.C] g) by reflexivity.
  rewrite Hsel. unfold random_choice.
  assert (Hb : g 0 mod 2 < 2) by (apply Nat.mod_upper_bound; discriminate).
  change (List.length [Examples.B; Examples.C]) with 2.
  destruct (g 0 mod 2) as [|[|k]]; [| |lia]; simpl.
  - exists Examples.B. eexists. repeat split; auto.
  - exists Examples.C. eexists. repeat split; auto.
Qed.

(** ** What a true answer of [consistent] means *)

Lemma check_neighbors_true (c : Crossword) (a : Assignment) (var : Var)
    (w : string) (ns : list Var) :
  check_neighbors c a var (Some w) ns = Ok true ->
  forall n, In n ns ->
    exists nw,
      aget n a = Some nw
      /\ (nw = None
          \/ exists w' x_i y_i,
              nw = Some w' /\ overlaps c var n = Some (x_i, y_i)
              /\ agree x_i y_i w w').
Proof.
  induction ns as [|n0 ns IH]; simpl; intros H n Hn; [contradiction|].
  destruct (aget n0 a) as [nw|] eqn:Eg; simpl in H; [|discriminate].
  destruct nw as [w'|].
  - destruct (overlaps c var n0) as [[x_i y_i]|] eqn:Eo; simpl in H; [|discriminate].
    unfold getitem in H.
    destruct (String.get x_i w) as [ca|] eqn:Ea; simpl in H; [|discriminate].
    destruct (String.get y_i w') as [cb|] eqn:Eb; simpl in H; [|discriminate].
    destruct (Ascii.eqb ca cb) eqn:Eab; simpl in H; [|discriminate].
    destruct Hn as [<-|Hn]; [|exact (IH H n Hn)].
    exists (Some w'). split; [exact Eg|]. right.
    exists w', x_i, y_i. repeat split; auto.
    apply Ascii.eqb_eq in Eab. subst cb. exists ca. auto.
  - destruct Hn as [<-|Hn]; [|exact (IH H n Hn)].
    exists None. auto.
Qed.

Lemma NoDup_snoc {A : Type} (l : list A) (x : A) :
  NoDup l -> ~ In x l -> NoDup (l ++ [x]).
Proof.
  induction l as [|a l IH]; simpl; intros Hnd Hx.
  - constructor; [simpl; tauto|constructor].
  - inversion Hnd as [|? ? Ha Hl]; subst. constructor.
    + rewrite in_app_iff. simpl. intros [H|[H|[]]]; [auto|]. subst. auto.
    + apply IH; auto.
Qed.

Lemma NoDup_snoc_app {A : Type} (l rest : list A) (x : A) :
  NoDup ((l ++ [x]) ++ rest) -> NoDup (l ++ x :: rest).
Proof. rewrite <- app_assoc. auto. Qed.

Lemma existsb_pyword_In (word : pyword) (l : list pyword) :
  existsb (pyword_eqb word) l = false -> ~ In word l.
Proof.
  intros H Hin.
  assert (Ht : existsb (pyword_eqb word) l = true).
  { apply existsb_exists. exists word. split; [exact Hin|].
    apply pyword_eqb_eq. reflexivity. }
  congruence.
Qed.

Lemma consistent_loop_true (c : Crossword) (a : Assignment)
    (items : list (Var * pyword)) :
  forall present_words,
    consistent_loop c a items present_words = Ok true ->
    (NoDup present_words -> NoDup (present_words ++ map snd items))
    /\ forall var word,
        In (var, word) items ->
        exists w,
          word = Some w /\ String.length w = var_length var
          /\ check_neighbors c a var word (neighbors c var) = Ok true.
Proof.
  induction items as [|[var word] rest IH]; simpl; intros pw H.
  - rewrite app_nil_r. split; [auto|contradiction].
  - destruct (existsb (pyword_eqb word) pw) eqn:Ex; [discriminate|].
    apply existsb_pyword_In in Ex.
    destruct word as [w|]; simpl in H; [|discriminate].
    destruct (String.length w =? var_length var) eqn:El; simpl in H;
      [|discriminate].
    apply Nat.eqb_eq in El.
    destruct (check_neighbors c a var (Some w) (neighbors c var)) as [[|]|e] eqn:Ec;
      simpl in H; try discriminate.
    destruct (IH _ H) as [Hnd Hall]. split.
    + intros Hpw. apply NoDup_snoc_app, Hnd, NoDup_snoc; assumption.
    + intros var' word' [Heq|Hin]; [|exact (Hall _ _ Hin)].
      injection Heq as <- <-. exists w. auto.
Qed.

Lemma NoDup_map_In_eq {A B : Type} (f : A -> B) (l : list A) (p q : A) :
  NoDup (map f l) -> In p l -> In q l -> f p = f q -> p = q.
Proof.
  induction l as [|a l IH]; simpl; intros Hnd Hp Hq Hf; [contradiction|].
  inversion Hnd as [|? ? Ha Hl]; subst.
  destruct Hp as [->|Hp], Hq as [->|Hq]; auto.
  - exfalso. apply Ha. rewrite Hf. apply in_map. exact Hq.
  - exfalso. apply Ha. rewrite <- Hf. apply in_map. exact Hp.
Qed.

Lemma assignment_complete_true (s : CrosswordCreator) (a : Assignment) :
  assignment_complete s a = true
  <-> forall v, In v (variables (crossword s)) -> exists word, aget v a = Some word.
Proof.
  unfold assignment_complete, Dict.mem, aget. rewrite forallb_forall.
  split; intros H v Hv; specialize (H v Hv).
  - destruct (Dict.get Var_eqb v a); [eauto|discriminate].
  - destruct H as [word ->]. reflexivity.
Qed.

(** A complete assignment for which [consistent] answers true fills every
    slot with a word of the slot's length, uses no word twice, and agrees on
    every shared cell. *)
Lemma consistent_true_solution (s : CrosswordCreator) (a : Assignment) :
  assignment_complete s a = true ->
  consistent s a = Ok true ->
  complete (crossword s) a /\ pairwise_distinct a /\ lengths_fit a
  /\ overlaps_agree (crossword s) a.
Proof.
  intros Hc Hk. unfold consistent, Dict.items in Hk.
  apply consistent_loop_true in Hk. destruct Hk as [Hnd Hall].
  specialize (Hnd (NoDup_nil _)). simpl in Hnd.
  rewrite assignment_complete_true in Hc.
  assert (Hsome : forall v word, aget v a = Some word ->
            exists w, word = Some w /\ String.length w = var_length v
              /\ check_neighbors (crossword s) a v word
                   (neighbors (crossword s) v) = Ok true).
  { intros v word Hg. apply Hall.
    apply (get_Some_In Var_eqb Var_eqb_eq). exact Hg. }
  assert (Hcomplete : complete (crossword s) a).
  { intros v Hv. destruct (Hc v Hv) as [word Hg].
    destruct (Hsome v word Hg) as [w [-> _]]. eauto. }
  split; [exact Hcomplete|]. split; [|split].
  - intros x y wx wy Hne Hx Hy Heq. subst wy. apply Hne.
    apply (get_Some_In Var_eqb Var_eqb_eq) in Hx, Hy.
    pose proof (NoDup_map_In_eq snd a (x, Some wx) (y, Some wx) Hnd Hx Hy eq_refl)
      as Hxy.
    congruence.
  - intros x w Hx. destruct (Hsome x _ Hx) as [w' [Hw [Hl _]]]. congruence.
  - intros x y Hx Hy. destruct (Hcomplete x Hx) as [wx Hgx].
    destruct (Hsome x _ Hgx) as [w [Hw [_ Hcheck]]].
    injection Hw as <-.
    destruct (check_neighbors_true _ _ _ _ _ Hcheck y Hy) as [nw [Hgy Hcase]].
    destruct (Hsome y _ Hgy) as [wy [-> _]].
    destruct Hcase as [Hn|(w' & x_i & y_i & Hw' & Ho & Hag)]; [discriminate|].
    injection Hw' as <-. exists wx, wy, x_i, y_i. auto.
Qed.

(** ** [backtrack]: its results *)

Lemma try_values_result
    (rec : Assignment -> rng -> option (res (option Assignment * rng)))
    (P : Assignment -> Prop) (a : Assignment) (v : Var) :
  (forall a' g r g', rec a' g = Some (Ok (Some r, g')) -> P r) ->
  forall vals g r g',
    try_values rec a v vals g = Some (Ok (Some r, g')) -> P r.
Proof.
  intros Hrec. induction vals as [|w vals IH]; simpl; intros g r g' H.
  - discriminate.
  - destruct (rec (aset v (Some w) a) g) as [[[[r1|] g1]|e]|] eqn:E;
      try discriminate.
    + injection H as <- <-. exact (Hrec _ _ _ _ E).
    + exact (IH _ _ _ H).
Qed.

(** An assignment returned by [backtrack] is complete and [consistent]
    has answered true for it. *)
Lemma backtrack_sound (fuel : nat) :
  forall (s : CrosswordCreator) (a : Assignment) (g : rng) r g',
    backtrack fuel s a g = Some (Ok (Some r, g')) ->
    assignment_complete s r = true /\ consistent s r = Ok true.
Proof.
  induction fuel as [|fuel IH]; intros s a g r g' H; simpl in H; [discriminate|].
  destruct (assignment_complete s a) eqn:Ec.
  - destruct (consistent s a) as [[|]|e] eqn:Ek; try discriminate.
    injection H as <- <-. auto.
  - destruct (select_unassigned_variable s a g) as [[v g1]|e]; [|discriminate].
    destruct (order_domain_values s v a) as [vals|e]; [|discriminate].
    refine (@try_values_result (backtrack fuel s)
              (fun r => assignment_complete s r = true /\ consistent s r = Ok true)
              a v _ vals g1 r g' H).
    intros a' g0 r0 g0'. apply IH.
Qed.

(** ** [backtrack]: termination *)

Lemma filter_length_lt {A : Type} (p q : A -> bool) (l : list A) (x : A) :
  (forall y, q y = true -> p y = true) ->
  In x l -> p x = true -> q x = false ->
  List.length (filter q l) < List.length (filter p l).
Proof.
  intros Hqp. induction l as [|a l IH]; simpl; intros Hin Hp Hq; [contradiction|].
  assert (Hle : List.length (filter q l) <= List.length (filter p l)).
  { clear -Hqp. induction l as [|b l IHl]; simpl; [lia|].
    destruct (q b) eqn:Eq.
    - rewrite (Hqp b Eq). simpl. lia.
    - destruct (p b); simpl; lia. }
  destruct Hin as [->|Hin].
  - rewrite Hp, Hq. simpl. lia.
  - specialize (IH Hin Hp Hq). destruct (q a) eqn:Eq.
    + rewrite (Hqp a Eq). simpl. lia.
    + destruct (p a); simpl; lia.
Qed.

Lemma mem_aset (x v : Var) (w : pyword) (a : Assignment) :
  Dict.mem Var_eqb x (aset v w a) = Var_eqb x v || Dict.mem Var_eqb x a.
Proof.
  unfold Dict.mem, aset. destruct (Var_eqb x v) eqn:E.
  - apply Var_eqb_eq in E. subst x.
    rewrite (get_set_same Var_eqb Var_eqb_eq). reflexivity.
  - apply Var_eqb_neq in E.
    rewrite (get_set_other Var_eqb Var_eqb_eq) by exact E. reflexivity.
Qed.

Lemma unassigned_In (s : CrosswordCreator) (a : Assignment) (v : Var) :
  In v (unassigned s a)
  <-> In v (variables (crossword s)) /\ Dict.mem Var_eqb v a = false.
Proof.
  unfold unassigned. rewrite filter_In, negb_true_iff. tauto.
Qed.

Lemma unassigned_aset_lt (s : CrosswordCreator) (a : Assignment) (v : Var)
    (w : pyword) :
  In v (unassigned s a) ->
  List.length (unassigned s (aset v w a)) < List.length (unassigned s a).
Proof.
  intros Hv. apply unassigned_In in Hv. destruct Hv as [Hin Hm].
  unfold unassigned. apply filter_length_lt with (x := v).
  - intros y. rewrite mem_aset, !negb_true_iff, orb_false_iff. tauto.
  - exact Hin.
  - rewrite Hm. reflexivity.
  - rewrite mem_aset, Var_eqb_refl. reflexivity.
Qed.

Lemma try_values_terminates
    (rec : Assignment -> rng -> option (res (option Assignment * rng)))
    (a : Assignment) (v : Var) :
  (forall w g, exists r, rec (aset v (Some w) a) g = Some r) ->
  forall vals g, exists r, try_values rec a v vals g = Some r.
Proof.
  intros Hrec. induction vals as [|w vals IH]; simpl; intros g; [eauto|].
  destruct (Hrec w g) as [r ->].
  destruct r as [[[r1|] g1]|e]; eauto.
Qed.

(** The recursion of [backtrack] is as deep as there are unassigned slots:
    every call below assigns one more slot. *)
Lemma backtrack_terminates (fuel : nat) :
  forall (s : CrosswordCreator) (a : Assignment) (g : rng),
    List.length (unassigned s a) < fuel ->
    exists r, backtrack fuel s a g = Some r.
Proof.
  induction fuel as [|fuel IH]; intros s a g Hlt; [lia|]. simpl.
  destruct (assignment_complete s a).
  - destruct (consistent s a) as [[|]|e]; eauto.
  - destruct (select_unassigned_variable s a g) as [[v g1]|e] eqn:Es; [|eauto].
    destruct (order_domain_values s v a) as [vals|e]; [|eauto].
    apply try_values_terminates. intros w g0. apply IH.
    apply select_unassigned_variable_spec in Es. destruct Es as [Hv _].
    pose proof (unassigned_aset_lt s a v (Some w) Hv). lia.
Qed.

(** ** A well-formed crossword raises no exception *)

Lemma init_keys (words0 : list string) (vars : list Var) :
  forall acc : Dict.t Var (list string),
    (forall k, In k (Dict.keys (fold_left (fun d var => dset var words0 d) vars acc))
               <-> In k vars \/ In k (Dict.keys acc))
    /\ (NoDup (Dict.keys acc) ->
        NoDup (Dict.keys (fold_left (fun d var => dset var words0 d) vars acc))).
Proof.
  induction vars as [|v vars IH]; simpl; intros acc.
  - split; [tauto|auto].
  - destruct (IH (dset v words0 acc)) as [Hk Hnd]. split.
    + intros k. rewrite Hk. unfold dset.
      rewrite (@set_keys_In _ _ Var_eqb Var_eqb_eq). intuition.
    + intros H. apply Hnd. apply set_keys_NoDup; [exact Var_eqb_eq|exact H].
Qed.

Lemma init_wf (c : Crossword) : wf_crossword c -> wf_creator (init c).
Proof.
  intros Hc. unfold wf_creator, init; simpl.
  destruct (init_keys (words c) (variables c) []) as [Hk Hnd].
  split; [exact Hc|]. split; [apply Hnd; constructor|].
  intros v. rewrite Hk. simpl. tauto.
Qed.

Lemma enforce_node_consistency_wf (s : CrosswordCreator) :
  wf_creator s ->
  wf_creator (enforce_node_consistency s)
  /\ node_consistent (enforce_node_consistency s).
Proof.
  intros (Hc & Hnd & Hk). unfold wf_creator, node_consistent.
  rewrite (enforce_node_consistency_domains s Hnd).
  rewrite keys_map_entries. simpl. split; [auto|].
  intros v d w Hg Hw. rewrite dget_map_entries in Hg.
  destruct (dget v (domains s)) as [d0|]; simpl in Hg; [|discriminate].
  injection Hg as <-. apply node_filter_In in Hw. tauto.
Qed.

Lemma wf_creator_dget (s : CrosswordCreator) (v : Var) :
  wf_creator s -> In v (variables (crossword s)) ->
  exists d, dget v (domains s) = Some d.
Proof.
  intros (_ & _ & Hk) Hv. apply Hk in Hv.
  destruct (dget v (domains s)) as [d|] eqn:E; [eauto|].
  apply (get_None_keys Var_eqb Var_eqb_eq) in E. contradiction.
Qed.

Lemma revise_safe (s : CrosswordCreator) (x y : Var) :
  wf_creator s -> node_consistent s ->
  In x (variables (crossword s)) -> In y (neighbors (crossword s) x) ->
  exists changed s',
    revise x y s = Ok (changed, s')
    /\ wf_creator s' /\ node_consistent s'.
Proof.
  intros Hwf Hnc Hx Hy.
  pose proof Hwf as ((_ & Hnb) & Hnd & Hk).
  destruct (Hnb x y Hx Hy) as (Hyv & _ & x_i & y_i & Ho & Hxi & Hyi).
  destruct (@wf_creator_dget s x Hwf Hx) as [dx Hdx].
  destruct (@wf_creator_dget s y Hwf Hyv) as [dy Hdy].
  destruct (@revise_defined x y s dx dy x_i y_i Hdx Hdy Ho) as (changed & s' & Hr).
  { intros w Hw. rewrite (Hnc x dx w Hdx Hw). exact Hxi. }
  { intros w Hw. rewrite (Hnc y dy w Hdy Hw). exact Hyi. }
  exists changed, s'. split; [exact Hr|].
  destruct (revise_Ok x y s Hr) as (dx' & dy' & i & j & Hdx' & Hdy' & Ho' & -> & _).
  rewrite Hdx in Hdx'. injection Hdx' as <-.
  assert (Hkeys : Dict.keys (dset x (supported i j dy' dx) (domains s))
                  = Dict.keys (domains s)).
  { apply set_present_keys; [exact Var_eqb_eq|]. apply Hk. exact Hx. }
  split.
  - unfold wf_creator; simpl. rewrite Hkeys. destruct Hwf as (Hc & _). auto.
  - intros v d w Hg Hw. simpl in Hg. destruct (Var_eq_dec v x) as [->|Hne].
    + rewrite dget_dset_same in Hg. injection Hg as <-.
      apply supported_In in Hw. destruct Hw as [Hw _]. exact (Hnc x dx w Hdx Hw).
    + rewrite dget_dset_other in Hg by exact Hne. exact (Hnc v d w Hg Hw).
Qed.

Lemma revise_crossword (s s' : CrosswordCreator) (x y : Var) (changed : bool) :
  revise x y s = Ok (changed, s') -> crossword s' = crossword s.
Proof.
  intros Hr. destruct (revise_Ok x y s Hr) as (? & ? & ? & ? & _ & _ & _ & -> & _).
  reflexivity.
Qed.

Lemma ac3_loop_crossword (fuel : nat) :
  forall (s s' : CrosswordCreator) (queue : list Arc) (b : bool),
    ac3_loop fuel s queue = Some (Ok (b, s')) -> crossword s' = crossword s.
Proof.
  induction fuel as [|fuel IH]; intros s s' queue b H;
    destruct queue as [|[x y] queue]; simpl in H; try discriminate;
    try (injection H as _ <-; reflexivity).
  destruct (revise x y s) as [[[|] s1]|e] eqn:Hr; [| |discriminate];
    pose proof (@revise_crossword _ _ _ _ _ Hr) as Hc.
  - destruct (dget x (domains s1)) as [d|]; [|discriminate].
    destruct (List.length d =? 0).
    + injection H as _ <-. exact Hc.
    + rewrite <- Hc. exact (IH _ _ _ _ H).
  - rewrite <- Hc. exact (IH _ _ _ _ H).
Qed.

Lemma ac3_loop_safe (fuel : nat) :
  forall (s : CrosswordCreator) (queue : list Arc) r,
    wf_creator s -> node_consistent s -> arcs_ok (crossword s) queue ->
    ac3_loop fuel s queue = Some r ->
    exists b s', r = Ok (b, s') /\ wf_creator s' /\ node_consistent s'.
Proof.
  induction fuel as [|fuel IH]; intros s queue r Hwf Hnc Ha H;
    destruct queue as [|[x y] queue]; simpl in H; try discriminate;
    try (injection H as <-; eauto).
  destruct (Ha x y (or_introl eq_refl)) as [Hx Hy].
  destruct (@revise_safe s x y Hwf Hnc Hx Hy) as (changed & s1 & Hr & Hwf1 & Hnc1).
  rewrite Hr in H. pose proof (@revise_crossword _ _ _ _ _ Hr) as Hc.
  assert (Ha1 : arcs_ok (crossword s1) queue).
  { rewrite Hc. intros x0 y0 H0. apply Ha. right. exact H0. }
  destruct changed.
  - destruct (dget x (domains s1)) as [d|] eqn:Ed.
    + destruct (List.length d =? 0); [injection H as <-; eauto|].
      refine (IH s1 _ r Hwf1 Hnc1 _ H).
      intros x0 y0 H0. apply in_app_or in H0. destruct H0 as [H0|H0].
      * apply Ha1. exact H0.
      * unfold arcs_from in H0. apply in_map_iff in H0.
        destruct H0 as [n [Heq Hn]]. injection Heq as <- <-.
        rewrite Hc. split; [exact Hx|]. rewrite <- Hc. exact Hn.
    + exfalso. rewrite Hc in *.
      destruct (@wf_creator_dget s1 x Hwf1) as [d Hd]; [rewrite Hc; exact Hx|].
      congruence.
  - exact (IH s1 _ r Hwf1 Hnc1 Ha1 H).
Qed.

Lemma all_arcs_ok (s : CrosswordCreator) :
  wf_creator s -> arcs_ok (crossword s) (all_arcs s).
Proof.
  intros (_ & _ & Hk) x y H. unfold all_arcs in H.
  apply in_flat_map in H. destruct H as [x0 [Hx0 H]].
  apply in_map_iff in H. destruct H as [y0 [Heq Hy0]].
  injection Heq as <- <-. split; [apply Hk; exact Hx0|exact Hy0].
Qed.

Lemma insert_by_In (key : string -> nat) (x y : string) (l : list string) :
  In x (insert_by key y l) <-> x = y \/ In x l.
Proof.
  induction l as [|a l IH]; simpl.
  - intuition.
  - destruct (key y <=? key a); simpl; [intuition|]. rewrite IH. intuition.
Qed.

Lemma sort_by_In (key : string -> nat) (x : string) (l : list string) :
  In x (sort_by key l) <-> In x l.
Proof.
  unfold sort_by. induction l as [|a l IH]; simpl; [tauto|].
  rewrite insert_by_In, IH. intuition.
Qed.

Lemma best_value_keys (domain : list string) :
  forall (acc : Dict.t string nat) (k : string),
    In k (Dict.keys (fold_left (fun d value => Dict.set String.eqb value 0 d)
                               domain acc))
    <-> In k domain \/ In k (Dict.keys acc).
Proof.
  induction domain as [|w domain IH]; simpl; intros acc k; [tauto|].
  rewrite IH, (@set_keys_In _ _ String.eqb String.eqb_eq). intuition.
Qed.

Lemma count_neighbor_keys (a : Assignment) (best_value : Dict.t string nat)
    (neighbor : Var) :
  Dict.keys (count_neighbor a best_value neighbor) = Dict.keys best_value.
Proof.
  unfold count_neighbor.
  destruct (aget neighbor a) as [[w|]|]; try reflexivity.
  destruct (Dict.get String.eqb w best_value) as [n|] eqn:E; [|reflexivity].
  apply set_present_keys; [exact String.eqb_eq|].
  apply (mem_keys String.eqb String.eqb_eq). unfold Dict.mem. rewrite E.
  reflexivity.
Qed.

Lemma count_neighbors_keys (a : Assignment) (ns : list Var) :
  forall best_value : Dict.t string nat,
    Dict.keys (fold_left (count_neighbor a) ns best_value) = Dict.keys best_value.
Proof.
  induction ns as [|n ns IH]; simpl; intros bv; [reflexivity|].
  rewrite IH. apply count_neighbor_keys.
Qed.

(** The values [order_domain_values] returns are words of the slot's
    domain. *)
Lemma order_domain_values_In (s : CrosswordCreator) (v : Var) (a : Assignment)
    (vals : list string) :
  order_domain_values s v a = Ok vals ->
  exists d, dget v (domains s) = Some d /\ forall w, In w vals -> In w d.
Proof.
  unfold order_domain_values.
  destruct (dget v (domains s)) as [d|]; simpl; [|discriminate].
  intros [= <-]. exists d. split; [reflexivity|].
  intros w Hw. apply sort_by_In in Hw.
  rewrite count_neighbors_keys in Hw. apply best_value_keys in Hw.
  destruct Hw as [Hw|[]]. exact Hw.
Qed.

Lemma order_domain_values_defined (s : CrosswordCreator) (v : Var) (a : Assignment)
    (d : list string) :
  dget v (domains s) = Some d -> exists vals, order_domain_values s v a = Ok vals.
Proof. intros H. unfold order_domain_values. rewrite H. simpl. eauto. Qed.

Lemma check_neighbors_defined (c : Crossword) (a : Assignment) (var : Var)
    (w : string) (ns : list Var) :
  words_fit c a ->
  String.length w = var_length var ->
  (forall n, In n ns ->
     (exists word, aget n a = Some word)
     /\ exists x_i y_i, overlaps c var n = Some (x_i, y_i)
                        /\ x_i < var_length var /\ y_i < var_length n) ->
  exists b, check_neighbors c a var (Some w) ns = Ok b.
Proof.
  intros Hfit Hlen. induction ns as [|n ns IH]; simpl; intros Hns; [eauto|].
  destruct (Hns n (or_introl eq_refl)) as ([word Hg] & x_i & y_i & Ho & Hxi & Hyi).
  rewrite Hg. simpl.
  assert (IH' : exists b, check_neighbors c a var (Some w) ns = Ok b).
  { apply IH. intros n0 Hn0. apply Hns. right. exact Hn0. }
  destruct (Hfit n word (get_Some_In Var_eqb Var_eqb_eq _ _ Hg))
    as [_ [w' [-> Hlen']]].
  rewrite Ho. simpl. unfold getitem.
  destruct (@get_in_range w x_i) as [ca ->]; [lia|].
  destruct (@get_in_range w' y_i) as [cb ->]; [lia|].
  simpl. destruct (Ascii.eqb ca cb); simpl; [exact IH'|eauto].
Qed.

Lemma consistent_defined (s : CrosswordCreator) (a : Assignment) :
  wf_crossword (crossword s) ->
  words_fit (crossword s) a ->
  assignment_complete s a = true ->
  exists b, consistent s a = Ok b.
Proof.
  intros [_ Hnb] Hfit Hc. rewrite assignment_complete_true in Hc.
  unfold consistent, Dict.items.
  assert (Hgen : forall items present_words,
             incl items a ->
             exists b, consistent_loop (crossword s) a items present_words = Ok b).
  { induction items as [|[var word] rest IH]; simpl; intros pw Hincl; [eauto|].
    destruct (existsb (pyword_eqb word) pw); [eauto|].
    destruct (Hfit var word (Hincl _ (or_introl eq_refl))) as [Hvar [w [-> Hlen]]].
    simpl. rewrite Hlen, Nat.eqb_refl. simpl.
    destruct (@check_neighbors_defined (crossword s) a var w
                (neighbors (crossword s) var) Hfit Hlen) as [b ->].
    { intros n Hn. destruct (Hnb var n Hvar Hn) as (Hnv & _ & Hov).
      split; [exact (Hc n Hnv)|exact Hov]. }
    simpl. destruct b; [|eauto].
    apply IH. intros e He. apply Hincl. right. exact He. }
  apply Hgen. apply incl_refl.
Qed.

Lemma aset_In (v k : Var) (w word : pyword) (a : Assignment) :
  In (k, word) (aset v w a) -> (k, word) = (v, w) \/ In (k, word) a.
Proof.
  unfold aset. induction a as [|[k' w'] a IH]; simpl.
  - intros [H|[]]. left. congruence.
  - destruct (Var_eqb v k') eqn:E; simpl.
    + apply Var_eqb_eq in E. subst k'. intros [H|H]; [left; congruence|auto].
    + intros [H|H]; [auto|]. destruct (IH H); auto.
Qed.

Lemma try_values_safe
    (rec : Assignment -> rng -> option (res (option Assignment * rng)))
    (a : Assignment) (v : Var) :
  forall vals,
    (forall w g r, In w vals -> rec (aset v (Some w) a) g = Some r ->
                   exists result g', r = Ok (result, g')) ->
    forall g r, try_values rec a v vals g = Some r ->
                exists result g', r = Ok (result, g').
Proof.
  induction vals as [|w vals IH]; simpl; intros Hrec g r H.
  - injection H as <-. eauto.
  - destruct (rec (aset v (Some w) a) g) as [r1|] eqn:E; [|discriminate].
    destruct (Hrec w g r1 (or_introl eq_refl) E) as (result & g1 & ->).
    destruct result as [r2|].
    + injection H as <-. eauto.
    + apply (IH (fun w0 g0 r0 Hw0 => Hrec w0 g0 r0 (or_intror Hw0)) _ _ H).
Qed.

Lemma unassigned_nonempty (s : CrosswordCreator) (a : Assignment) :
  assignment_complete s a = false -> unassigned s a <> [].
Proof.
  unfold assignment_complete, unassigned. intros H Hnil.
  assert (Hall : forallb (fun var => Dict.mem Var_eqb var a)
                         (variables (crossword s)) = true).
  { apply forallb_forall. intros x Hx.
    destruct (Dict.mem Var_eqb x a) eqn:E; [reflexivity|].
    assert (Hin : In x (filter (fun variable => negb (Dict.mem Var_eqb variable a))
                               (variables (crossword s)))).
    { apply filter_In. rewrite E. auto. }
    rewrite Hnil in Hin. contradiction. }
  congruence.
Qed.

(** On a well-formed creator with node-consistent domains the search raises
    no exception. *)
Lemma backtrack_safe (fuel : nat) :
  forall (s : CrosswordCreator) (a : Assignment) (g : rng) r,
    wf_creator s -> node_consistent s -> words_fit (crossword s) a ->
    backtrack fuel s a g = Some r ->
    exists result g', r = Ok (result, g').
Proof.
  induction fuel as [|fuel IH]; intros s a g r Hwf Hnc Hfit H; simpl in H;
    [discriminate|].
  destruct (assignment_complete s a) eqn:Ec.
  - destruct (@consistent_defined s a (proj1 Hwf) Hfit Ec) as [b Hb].
    rewrite Hb in H. destruct b; injection H as <-; eauto.
  - destruct (@select_unassigned_variable_defined s a g) as (v & g1 & Es).
    { apply unassigned_nonempty. exact Ec. }
    { intros u Hu. apply unassigned_In in Hu. destruct Hu as [Hu _].
      destruct (@wf_creator_dget s u Hwf Hu) as [d ->]. discriminate. }
    rewrite Es in H.
    pose proof Es as Hsel. apply select_unassigned_variable_spec in Hsel.
    destruct Hsel as [Hv _]. apply unassigned_In in Hv. destruct Hv as [Hv _].
    destruct (@wf_creator_dget s v Hwf Hv) as [d Hd].
    destruct (@order_domain_values_defined s v a d Hd) as [vals Eo].
    rewrite Eo in H. apply order_domain_values_In in Eo.
    destruct Eo as (d' & Hd' & Hvals). rewrite Hd in Hd'. injection Hd' as <-.
    refine (@try_values_safe (backtrack fuel s) a v vals _ g1 r H).
    intros w g0 r0 Hw Hr0. refine (IH s _ g0 r0 Hwf Hnc _ Hr0).
    intros k word Hin. apply aset_In in Hin. destruct Hin as [Heq|Hin].
    + injection Heq as -> ->. split; [exact Hv|].
      exists w. split; [reflexivity|]. exact (Hnc v d w Hd (Hvals w Hw)).
    + exact (Hfit k word Hin).
Qed.

(** ** [solve] *)

Lemma consistent_crossword (s s' : CrosswordCreator) (a : Assignment) :
  crossword s' = crossword s -> consistent s' a = consistent s a.
Proof. intros H. unfold consistent. rewrite H. reflexivity. Qed.

Lemma assignment_complete_crossword (s s' : CrosswordCreator) (a : Assignment) :
  crossword s' = crossword s -> assignment_complete s' a = assignment_complete s a.
Proof. intros H. unfold assignment_complete. rewrite H. reflexivity. Qed.

(** C5: [solve] returns on every creator and every random source.  An
    assignment it returns is complete and satisfies [consistent]: every slot
    has a word, the words are pairwise distinct, each word has the length of
    its slot, and neighboring slots agree on the character of their shared
    cell.  On a well-formed creator nothing is raised, so that the result is
    such an assignment or [None]. *)
Theorem solve_spec (s : CrosswordCreator) (g : rng) :
  exists r,
    solve s g = Some r
    /\ (forall a,
          r = Ok (Some a) ->
          complete (crossword s) a
          /\ consistent s a = Ok true
          /\ pairwise_distinct a /\ lengths_fit a
          /\ overlaps_agree (crossword s) a)
    /\ (wf_creator s -> exists result, r = Ok result).
Proof.
  unfold solve.
  destruct (ac3_result None (enforce_node_consistency s)) as [r1 Hr1].
  rewrite Hr1.
  assert (Hsafe1 : wf_creator s ->
            exists b s2, r1 = Ok (b, s2) /\ wf_creator s2 /\ node_consistent s2).
  { intros Hwf. apply enforce_node_consistency_wf in Hwf.
    destruct Hwf as [Hwf1 Hnc1]. unfold ac3 in Hr1.
    refine (@ac3_loop_safe _ _ _ r1 Hwf1 Hnc1 _ Hr1).
    apply all_arcs_ok. exact Hwf1. }
  destruct r1 as [[b s2]|e].
  - assert (Hc2 : crossword s2 = crossword s).
    { unfold ac3 in Hr1. apply ac3_loop_crossword in Hr1. exact Hr1. }
    destruct (@backtrack_terminates (S (List.length (unassigned s2 []))) s2 [] g)
      as [r2 Hr2]; [lia|].
    rewrite Hr2. destruct r2 as [[result g']|e].
    + exists (Ok result). split; [reflexivity|]. split; [|eauto].
      intros a Ha. injection Ha as ->.
      apply backtrack_sound in Hr2. destruct Hr2 as [Hcomp Hcons].
      destruct (consistent_true_solution s2 a Hcomp Hcons) as (H1 & H2 & H3 & H4).
      rewrite Hc2 in H1, H4. rewrite (consistent_crossword s s2 a Hc2) in Hcons.
      auto.
    + exists (Raise e). split; [reflexivity|]. split; [discriminate|].
      intros Hwf. destruct (Hsafe1 Hwf) as (b' & s2' & Heq & Hwf2 & Hnc2).
      injection Heq as <- <-.
      assert (Hfit : words_fit (crossword s2) []) by (intros v word []).
      destruct (@backtrack_safe _ s2 [] g _ Hwf2 Hnc2 Hfit Hr2) as (? & ? & Habs).
      discriminate.
  - exists (Raise e). split; [reflexivity|]. split; [discriminate|].
    intros Hwf. destruct (Hsafe1 Hwf) as (? & ? & Habs & _). discriminate.
Qed.

Lemma crossword3_wf : wf_crossword Examples.crossword3.
Proof.
  split.
  - simpl. repeat constructor; simpl; intuition discriminate.
  - intros x y Hx Hy. simpl in Hx.
    destruct Hx as [<-|[<-|[<-|[]]]]; simpl in Hy;
      repeat (destruct Hy as [<-|Hy]); try contradiction;
      (split; [simpl; auto|]); (split; [discriminate|]);
      simpl; unfold Examples.overlaps3; simpl; eauto 10.
Qed.

Lemma solve_spec_witness :
  wf_creator (init Examples.crossword3)
  /\ exists r,
      solve (init Examples.crossword3) (Examples.const_rng 0) = Some r
      /\ (forall a,
            r = Ok (Some a) ->
            complete Examples.crossword3 a
            /\ consistent (init Examples.crossword3) a = Ok true
            /\ pairwise_distinct a /\ lengths_fit a
            /\ overlaps_agree Examples.crossword3 a)
      /\ (wf_creator (init Examples.crossword3) -> exists result, r = Ok result).
Proof.
  split.
  - apply init_wf. exact crossword3_wf.
  - exact (solve_spec (init Examples.crossword3) (Examples.const_rng 0)).
Defined.

(** The search on the three-slot crossword finds the one filling. *)
Example solve_crossword3 :
  solve (init Examples.crossword3) (Examples.const_rng 0)
  = Some (Ok (Some [(Examples.B, Some "co"%string);
                    (Examples.C, Some "to"%string);
                    (Examples.A, Some "cat"%string)])).
Proof. reflexivity. Qed.

(** * Further properties of the solver *)

(** ** [__init__] *)

Lemma init_fold_dget (words0 : list string) (vars : list Var) (v : Var) :
  forall acc : Dict.t Var (list string),
    dget v (fold_left (fun d var => dset var words0 d) vars acc)
    = if in_dec Var_eq_dec v vars then Some words0 else dget v acc.
Proof.
  induction vars as [|a vars IH]; simpl; intros acc; [reflexivity|].
  rewrite IH. destruct (in_dec Var_eq_dec v vars) as [Hin|Hin].
  - destruct (Var_eq_dec a v); reflexivity.
  - destruct (Var_eq_dec a v) as [->|Hne].
    + apply dget_dset_same.
    + apply dget_dset_other. congruence.
Qed.

(** X1: a new creator keeps the crossword it is given; its domain store has
    one entry per slot of the crossword, holding the whole vocabulary, and
    no entry for anything else. *)
Theorem init_domains (c : Crossword) :
  crossword (init c) = c
  /\ NoDup (Dict.keys (domains (init c)))
  /\ (forall v, In v (variables c) -> dget v (domains (init c)) = Some (words c))
  /\ (forall v, ~ In v (variables c) -> dget v (domains (init c)) = None).
Proof.
  split; [reflexivity|]. split.
  - apply (proj2 (init_keys (words c) (variables c) [])). constructor.
  - unfold init; simpl. split; intros v Hv; rewrite init_fold_dget;
      destruct (in_dec Var_eq_dec v (variables c)); try contradiction; reflexivity.
Qed.

(** ** [enforce_node_consistency] once more *)

Lemma filter_all_true {A : Type} (p : A -> bool) (l : list A) :
  (forall x, In x l -> p x = true) -> filter p l = l.
Proof.
  induction l as [|a l IH]; simpl; intros H; [reflexivity|].
  rewrite (H a (or_introl eq_refl)). f_equal. apply IH. auto.
Qed.

Lemma node_filter_idempotent (val : Var) (domain : list string) :
  node_filter val (node_filter val domain) = node_filter val domain.
Proof.
  unfold node_filter at 1. rewrite filter_all_true.
  - unfold py_set. apply nodup_fixed_point. unfold node_filter, py_set.
    apply NoDup_nodup.
  - intros x Hx. apply node_filter_In in Hx. apply Nat.eqb_eq. tauto.
Qed.

(** X2: node consistency is idempotent: on a domain store that is a
    dictionary, a second run of [enforce_node_consistency] changes nothing. *)
Theorem enforce_node_consistency_idempotent (s : CrosswordCreator) :
  NoDup (Dict.keys (domains s)) ->
  enforce_node_consistency (enforce_node_consistency s)
  = enforce_node_consistency s.
Proof.
  intros Hnd.
  assert (Hd : domains (enforce_node_consistency (enforce_node_consistency s))
               = domains (enforce_node_consistency s)).
  { rewrite (enforce_node_consistency_domains (enforce_node_consistency s)).
    - rewrite (enforce_node_consistency_domains s Hnd), map_map.
      apply map_ext. intros [val domain]. rewrite node_filter_idempotent.
      reflexivity.
    - rewrite (enforce_node_consistency_domains s Hnd), keys_map_entries.
      exact Hnd. }
  unfold enforce_node_consistency at 1.
  unfold enforce_node_consistency at 3.
  f_equal. exact Hd.
Qed.

Lemma enforce_node_consistency_idempotent_witness :
  enforce_node_consistency (enforce_node_consistency (init Examples.crossword3))
  = enforce_node_consistency (init Examples.crossword3).
Proof.
  apply (enforce_node_consistency_idempotent (init Examples.crossword3)).
  simpl. repeat constructor; simpl; intuition discriminate.
Defined.

(** ** [revise]: when it raises, and what a second call does *)

Lemma get_None_length (w : string) (n : nat) :
  String.get n w = None <-> String.length w <= n.
Proof.
  revert n. induction w as [|c w IH]; simpl; intros n.
  - split; [lia|reflexivity].
  - destruct n; [split; [discriminate|lia]|]. rewrite IH. lia.
Qed.

Lemma compatible_words_Raise (word_x : string) (x_i y_i : nat)
    (domain_y : list string) :
  forall e,
    compatible_words word_x x_i y_i domain_y = Raise e
    <-> e = IndexError
        /\ domain_y <> []
        /\ (String.length word_x <= x_i
            \/ exists w, In w domain_y /\ String.length w <= y_i).
Proof.
  induction domain_y as [|word_y rest IH]; simpl; intros e.
  - split; [discriminate|]. intros (_ & H & _). congruence.
  - unfold getitem.
    destruct (String.get x_i word_x) as [a|] eqn:Ea; simpl.
    + assert (Hx : ~ String.length word_x <= x_i).
      { intros H. apply get_None_length in H. congruence. }
      destruct (String.get y_i word_y) as [b|] eqn:Eb; simpl.
      * assert (Hy : ~ String.length word_y <= y_i).
        { intros H. apply get_None_length in H. congruence. }
        destruct (compatible_words word_x x_i y_i rest) as [tl|e0]; simpl.
        -- split; [discriminate|]. intros (_ & _ & [H|[w [[<-|Hw] Hl]]]);
             try contradiction.
           exfalso.
           assert (Hr : Ok tl = Raise IndexError :> res (list string)).
           { apply IH. split; [reflexivity|]. split.
             - intros ->. contradiction.
             - right. eauto. }
           discriminate.
        -- destruct (proj1 (IH e0) eq_refl) as (-> & _ & Hc). split.
           ++ intros [= <-]. split; [reflexivity|]. split; [discriminate|].
              destruct Hc as [H|[w [Hw Hl]]]; [contradiction|]. right. eauto.
           ++ intros (-> & _). reflexivity.
      * apply get_None_length in Eb. split.
        -- intros [= <-]. split; [reflexivity|]. split; [discriminate|].
           right. eauto.
        -- intros (-> & _). reflexivity.
    + apply get_None_length in Ea. split.
      * intros [= <-]. split; [reflexivity|]. split; [discriminate|]. auto.
      * intros (-> & _). reflexivity.
Qed.

Lemma revise_loop_Raise (x_i y_i : nat) (domain_y domain_x : list string) :
  forall e,
    revise_loop x_i y_i domain_y domain_x = Raise e
    <-> e = IndexError
        /\ domain_x <> [] /\ domain_y <> []
        /\ ((exists w, In w domain_x /\ String.length w <= x_i)
            \/ exists w, In w domain_y /\ String.length w <= y_i).
Proof.
  induction domain_x as [|word_x rest IH]; simpl; intros e.
  - split; [discriminate|]. intros (_ & H & _). congruence.
  - destruct (compatible_words word_x x_i y_i domain_y) as [cw|e0] eqn:Ec; simpl.
    + assert (Hno : ~ (domain_y <> []
                       /\ (String.length word_x <= x_i
                           \/ exists w, In w domain_y /\ String.length w <= y_i))).
      { intros H.
        assert (Hr : compatible_words word_x x_i y_i domain_y = Raise IndexError)
          by (apply compatible_words_Raise; tauto).
        congruence. }
      destruct (revise_loop x_i y_i domain_y rest) as [tl|e1]; simpl.
      * split; [discriminate|].
        intros (_ & _ & Hy & [[w [[<-|Hw] Hl]]|H]).
        -- exfalso. apply Hno. auto.
        -- assert (Hr : Ok tl = Raise IndexError :> res (list string)).
           { apply IH. split; [reflexivity|]. split; [intros ->; contradiction|].
             split; [exact Hy|]. left. eauto. }
           discriminate.
        -- exfalso. apply Hno. auto.
      * destruct (proj1 (IH e1) eq_refl) as (-> & _ & Hy & Hc). split.
        -- intros [= <-]. split; [reflexivity|]. split; [discriminate|].
           split; [exact Hy|]. destruct Hc as [[w [Hw Hl]]|H]; [left; eauto|auto].
        -- intros (-> & _). reflexivity.
    + apply compatible_words_Raise in Ec.
      destruct Ec as (-> & Hy & Hc). split.
      * intros [= <-]. split; [reflexivity|]. split; [discriminate|].
        split; [exact Hy|]. destruct Hc as [Hx|H]; [left; eauto|auto].
      * intros (-> & _). reflexivity.
Qed.

(** X3: when [revise] returns.  The call [revise(x, y)] returns, raising
    nothing, exactly when [x] and [y] both have a domain, the pair has overlap
    offsets, and either one of the two domains is empty or every word of
    [x]'s domain reaches [x]'s offset and every word of [y]'s domain reaches
    [y]'s offset. *)
Theorem revise_returns_iff (x y : Var) (s : CrosswordCreator) :
  (exists changed s', revise x y s = Ok (changed, s'))
  <-> exists domain_x domain_y x_i y_i,
        dget x (domains s) = Some domain_x
        /\ dget y (domains s) = Some domain_y
        /\ overlaps (crossword s) x y = Some (x_i, y_i)
        /\ (domain_x = [] \/ domain_y = []
            \/ ((forall w, In w domain_x -> x_i < String.length w)
                /\ forall w, In w domain_y -> y_i < String.length w)).
Proof.
  split.
  - intros (changed & s' & H). unfold revise in H.
    bind_ok H as dx Ex. bind_ok H as dy Ey. bind_ok H as [x_i y_i] Eo.
    bind_ok H as new El. apply or_raise_Ok in Ex, Ey, Eo.
    exists dx, dy, x_i, y_i. repeat (split; [assumption|]).
    destruct dx as [|wx dx]; [auto|]. destruct dy as [|wy dy]; [auto|].
    right. right. split; intros w Hw.
    + destruct (Nat.lt_ge_cases x_i (String.length w)) as [Hl|Hl]; [exact Hl|].
      exfalso.
      assert (Hr : revise_loop x_i y_i (wy :: dy) (wx :: dx) = Raise IndexError).
      { apply revise_loop_Raise. split; [reflexivity|].
        split; [discriminate|]. split; [discriminate|]. left. eauto. }
      congruence.
    + destruct (Nat.lt_ge_cases y_i (String.length w)) as [Hl|Hl]; [exact Hl|].
      exfalso.
      assert (Hr : revise_loop x_i y_i (wy :: dy) (wx :: dx) = Raise IndexError).
      { apply revise_loop_Raise. split; [reflexivity|].
        split; [discriminate|]. split; [discriminate|]. right. eauto. }
      congruence.
  - intros (dx & dy & x_i & y_i & Hx & Hy & Ho & Hc).
    unfold revise. rewrite Hx, Hy, Ho. simpl.
    destruct (revise_loop x_i y_i dy dx) as [new|e] eqn:El; [simpl; eauto|].
    exfalso. apply revise_loop_Raise in El.
    destruct El as (_ & Hdx & Hdy & Hshort).
    destruct Hc as [->|[->|[Hlx Hly]]]; [congruence|congruence|].
    destruct Hshort as [[w [Hw Hl]]|[w [Hw Hl]]].
    + specialize (Hlx w Hw). lia.
    + specialize (Hly w Hw). lia.
Qed.

Lemma revise_loop_filter (x_i y_i : nat) (domain_y domain_x l : list string)
    (q : string -> bool) :
  revise_loop x_i y_i domain_y domain_x = Ok l ->
  revise_loop x_i y_i domain_y (filter q domain_x) = Ok (filter q l).
Proof.
  revert l. induction domain_x as [|word_x rest IH]; simpl; intros l H.
  - injection H as <-. reflexivity.
  - bind_ok H as cw Ecw. bind_ok H as tl Etl. injection H as <-.
    specialize (IH tl eq_refl). destruct (q word_x) eqn:Eq; simpl.
    + rewrite Ecw, IH. simpl.
      destruct (negb (List.length cw =? 0)); simpl; [rewrite Eq|]; reflexivity.
    + rewrite IH.
      destruct (negb (List.length cw =? 0)); simpl; [rewrite Eq|]; reflexivity.
Qed.

Lemma filter_idempotent {A : Type} (p : A -> bool) (l : list A) :
  filter p (filter p l) = filter p l.
Proof.
  apply filter_all_true. intros x Hx. apply filter_In in Hx. tauto.
Qed.

Lemma dset_dset (x : Var) (v : list string) (d : Dict.t Var (list string)) :
  dset x v (dset x v d) = dset x v d.
Proof.
  unfold dset. induction d as [|[k w] d IH]; simpl.
  - rewrite Var_eqb_refl. reflexivity.
  - destruct (Var_eqb x k) eqn:E; simpl; rewrite E; [reflexivity|].
    f_equal. exact IH.
Qed.

(** X4: [revise] is idempotent: for two different slots, a second call
    [revise(x, y)] right after a call that returned reports no revision and
    leaves the creator as the first call left it. *)
Theorem revise_idempotent (x y : Var) (s s' : CrosswordCreator) (changed : bool) :
  x <> y ->
  revise x y s = Ok (changed, s') ->
  revise x y s' = Ok (false, s').
Proof.
  intros Hne Hr. pose proof Hr as Hr0. unfold revise in Hr0.
  bind_ok Hr0 as dx Ex. bind_ok Hr0 as dy Ey. bind_ok Hr0 as [x_i y_i] Eo.
  bind_ok Hr0 as new El. injection Hr0 as _ <-.
  apply or_raise_Ok in Ex, Ey, Eo.
  pose proof (revise_loop_Ok _ _ _ _ El) as Hnew.
  unfold revise; simpl.
  rewrite dget_dset_same, dget_dset_other by congruence.
  rewrite Ey, Eo. simpl.
  assert (Hl2 : revise_loop x_i y_i dy new = Ok new).
  { pose proof (@revise_loop_filter x_i y_i dy dx new
                  (fun w => existsb (agreeb x_i y_i w) dy) El) as Hf.
    rewrite Hnew in Hf. unfold supported in Hf.
    rewrite filter_idempotent in Hf. rewrite Hnew. exact Hf. }
  rewrite Hl2. simpl. rewrite Nat.eqb_refl, dset_dset. reflexivity.
Qed.

Lemma revise_idempotent_witness :
  revise Examples.A Examples.B Examples.creator3_revised
  = Ok (false, Examples.creator3_revised).
Proof.
  apply (@revise_idempotent Examples.A Examples.B Examples.creator3
           Examples.creator3_revised true); [discriminate|reflexivity].
Defined.

Lemma supported_empty (x_i y_i : nat) (domain_x : list string) :
  supported x_i y_i [] domain_x = [].
Proof. unfold supported. induction domain_x; simpl; auto. Qed.

(** X5: revising against an empty domain: when [y]'s domain is empty,
    [revise(x, y)] reads no character and raises nothing, whatever the words
    of [x]; it empties [x]'s domain and reports a revision exactly when that
    domain held a word. *)
Theorem revise_against_empty (x y : Var) (s : CrosswordCreator)
    (domain_x : list string) (x_i y_i : nat) :
  dget x (domains s) = Some domain_x ->
  dget y (domains s) = Some [] ->
  overlaps (crossword s) x y = Some (x_i, y_i) ->
  revise x y s
  = Ok (negb (List.length domain_x =? 0),
        {| crossword := crossword s; domains := dset x [] (domains s) |}).
Proof.
  intros Hx Hy Ho. unfold revise. rewrite Hx, Hy, Ho. simpl.
  assert (Hl : revise_loop x_i y_i [] domain_x = Ok []).
  { clear. induction domain_x as [|w rest IH]; simpl; [reflexivity|].
    rewrite IH. reflexivity. }
  rewrite Hl. simpl. repeat f_equal. destruct domain_x; reflexivity.
Qed.

Lemma revise_against_empty_witness :
  revise Examples.B Examples.A
    {| crossword := Examples.crossword3;
       domains := dset Examples.A [] (domains Examples.creator3) |}
  = Ok (true,
        {| crossword := Examples.crossword3;
           domains := dset Examples.B []
                        (dset Examples.A [] (domains Examples.creator3)) |}).
Proof.
  apply (@revise_against_empty Examples.B Examples.A
           {| crossword := Examples.crossword3;
              domains := dset Examples.A [] (domains Examples.creator3) |}
           ["co"; "to"]%string 0 0); reflexivity.
Defined.

(** ** [ac3]: what it keeps and what its signal means *)

Lemma ac3_loop_shrinks (fuel : nat) :
  forall (s s' : CrosswordCreator) (queue : list Arc) (b : bool),
    ac3_loop fuel s queue = Some (Ok (b, s')) ->
    Dict.keys (domains s') = Dict.keys (domains s)
    /\ forall v d', dget v (domains s') = Some d' ->
         exists d, dget v (domains s) = Some d
                   /\ incl d' d /\ List.length d' <= List.length d.
Proof.
  induction fuel as [|fuel IH]; intros s s' queue b H;
    destruct queue as [|[x y] queue]; simpl in H; try discriminate;
    try (injection H as _ <-; split; [reflexivity|];
         intros v d' Hd; exists d'; split; [exact Hd|];
         split; [apply incl_refl|lia]).
  destruct (revise x y s) as [[changed s1]|e] eqn:Hr; [|discriminate].
  destruct (revise_Ok x y s Hr) as (dx & dy & i & j & Hx & _ & _ & Hs1 & _).
  assert (Hstep : Dict.keys (domains s1) = Dict.keys (domains s)
                  /\ forall v d', dget v (domains s1) = Some d' ->
                       exists d, dget v (domains s) = Some d
                                 /\ incl d' d /\ List.length d' <= List.length d).
  { subst s1; simpl. split.
    - apply set_present_keys; [exact Var_eqb_eq|].
      apply (mem_keys Var_eqb Var_eqb_eq). unfold Dict.mem.
      unfold dget in Hx. rewrite Hx. reflexivity.
    - intros v d' Hd. destruct (Var_eq_dec v x) as [->|Hne].
      + rewrite dget_dset_same in Hd. injection Hd as <-.
        exists dx. split; [exact Hx|]. split; [|apply supported_length].
        intros w Hw. apply supported_In in Hw. tauto.
      + rewrite dget_dset_other in Hd by exact Hne.
        exists d'. split; [exact Hd|]. split; [apply incl_refl|lia]. }
  assert (Hcomp : forall s2,
            (Dict.keys (domains s2) = Dict.keys (domains s1)
             /\ forall v d', dget v (domains s2) = Some d' ->
                  exists d, dget v (domains s1) = Some d
                            /\ incl d' d /\ List.length d' <= List.length d) ->
            Dict.keys (domains s2) = Dict.keys (domains s)
            /\ forall v d', dget v (domains s2) = Some d' ->
                 exists d, dget v (domains s) = Some d
                           /\ incl d' d /\ List.length d' <= List.length d).
  { intros s2 [Hk2 Hd2]. destruct Hstep as [Hk1 Hd1]. split; [congruence|].
    intros v d' Hd. destruct (Hd2 v d' Hd) as (d1 & Hg1 & Hi1 & Hl1).
    destruct (Hd1 v d1 Hg1) as (d0 & Hg0 & Hi0 & Hl0).
    exists d0. split; [exact Hg0|]. split; [|lia].
    intros w Hw. apply Hi0, Hi1, Hw. }
  destruct changed.
  - destruct (dget x (domains s1)) as [d|]; [|discriminate].
    destruct (List.length d =? 0).
    + injection H as _ <-. exact Hstep.
    + apply Hcomp. exact (IH _ _ _ _ H).
  - apply Hcomp. exact (IH _ _ _ _ H).
Qed.

(** X6: [ac3] only removes words: when it returns, with either signal, the
    crossword is the same, the domain store has the same slots in the same
    order, and every slot's domain is a part of the domain it had. *)
Theorem ac3_only_shrinks (arcs : option (list Arc)) (s s' : CrosswordCreator)
    (b : bool) :
  ac3 arcs s = Some (Ok (b, s')) ->
  crossword s' = crossword s
  /\ Dict.keys (domains s') = Dict.keys (domains s)
  /\ forall v d', dget v (domains s') = Some d' ->
       exists d, dget v (domains s) = Some d
                 /\ incl d' d /\ List.length d' <= List.length d.
Proof.
  unfold ac3. intros H. split.
  - exact (ac3_loop_crossword _ _ _ H).
  - exact (ac3_loop_shrinks _ _ _ H).
Qed.

Lemma ac3_only_shrinks_witness :
  exists s',
    ac3 None Examples.creator3 = Some (Ok (true, s'))
    /\ crossword s' = crossword Examples.creator3
    /\ Dict.keys (domains s') = Dict.keys (domains Examples.creator3).
Proof.
  eexists. split; [reflexivity|].
  pose (H := @ac3_only_shrinks None Examples.creator3 _ true eq_refl).
  split; [exact (proj1 H)|exact (proj1 (proj2 H))].
Defined.

Lemma ac3_loop_False_empty (fuel : nat) :
  forall (s s' : CrosswordCreator) (queue : list Arc),
    ac3_loop fuel s queue = Some (Ok (false, s')) ->
    exists x, In x (map fst queue) /\ dget x (domains s') = Some [].
Proof.
  induction fuel as [|fuel IH]; intros s s' queue H;
    destruct queue as [|[x y] queue]; simpl in H; try discriminate.
  destruct (revise x y s) as [[changed s1]|e] eqn:Hr; [|discriminate].
  destruct changed.
  - destruct (dget x (domains s1)) as [d|] eqn:Hd; [|discriminate].
    destruct (List.length d =? 0) eqn:E.
    + injection H as <-. apply length_zero_nil in E. subst d.
      exists x. split; [left; reflexivity|exact Hd].
    + destruct (IH _ _ _ H) as (x0 & Hin & Hg).
      exists x0. split; [|exact Hg]. rewrite map_app, in_app_iff in Hin.
      destruct Hin as [Hin|Hin]; [right; exact Hin|left].
      apply in_map_iff in Hin. destruct Hin as [a [<- Ha]].
      symmetry. exact (arcs_from_fst _ _ _ Ha).
  - destruct (IH _ _ _ H) as (x0 & Hin & Hg).
    exists x0. split; [right; exact Hin|exact Hg].
Qed.

(** X7: the failure signal of [ac3] is never a false alarm: when [ac3]
    returns False, a slot that is the first slot of an arc of the worklist
    it started with is left with an empty domain. *)
Theorem ac3_False_empty_domain (arcs : option (list Arc))
    (s s' : CrosswordCreator) :
  ac3 arcs s = Some (Ok (false, s')) ->
  exists x, In x (map fst (initial_queue arcs s))
            /\ dget x (domains s') = Some [].
Proof. unfold ac3. apply ac3_loop_False_empty. Qed.

Lemma ac3_False_empty_domain_witness :
  exists s',
    ac3 (Some [(Examples.B, Examples.A)])
        {| crossword := Examples.crossword3;
           domains := dset Examples.A [] (domains Examples.creator3) |}
    = Some (Ok (false, s'))
    /\ exists x, In x [Examples.B] /\ dget x (domains s') = Some [].
Proof.
  eexists. split; [reflexivity|].
  apply (@ac3_False_empty_domain (Some [(Examples.B, Examples.A)])
           {| crossword := Examples.crossword3;
              domains := dset Examples.A [] (domains Examples.creator3) |}).
  reflexivity.
Defined.

(** X8: when no domain is empty on entry and [ac3] returns True, no domain
    is empty on exit. *)
Theorem ac3_True_nonempty (arcs : option (list Arc)) (s s' : CrosswordCreator) :
  (forall v d, dget v (domains s) = Some d -> d <> []) ->
  ac3 arcs s = Some (Ok (true, s')) ->
  forall v d, dget v (domains s') = Some d -> d <> [].
Proof.
  unfold ac3. intros Hne H.
  exact (@ac3_loop_True_nonempty _ s s' _ Hne H).
Qed.

Lemma ac3_True_nonempty_witness :
  exists s',
    ac3 None Examples.creator3 = Some (Ok (true, s'))
    /\ forall v d, dget v (domains s') = Some d -> d <> [].
Proof.
  eexists. split; [reflexivity|].
  apply (@ac3_True_nonempty None Examples.creator3); [|reflexivity].
  intros v d. unfold dget; simpl.
  repeat (match goal with
          | |- context [Var_eqb v ?k] => destruct (Var_eqb v k)
          end; [intros [= <-]; discriminate|]).
  discriminate.
Defined.

(** X9: on a well-formed creator with node-consistent domains, [ac3] started
    with all arcs, or with arcs from a slot to one of its neighbors, raises
    no exception, and the creator it leaves is again well-formed and
    node-consistent. *)
Theorem ac3_safe (arcs : option (list Arc)) (s : CrosswordCreator) :
  wf_creator s -> node_consistent s ->
  arcs_ok (crossword s) (initial_queue arcs s) ->
  exists b s',
    ac3 arcs s = Some (Ok (b, s')) /\ wf_creator s' /\ node_consistent s'.
Proof.
  intros Hwf Hnc Harcs. destruct (ac3_result arcs s) as [r Hr].
  pose proof Hr as Hr'. unfold ac3 in Hr'.
  destruct (@ac3_loop_safe _ s _ r Hwf Hnc Harcs Hr') as (b & s' & -> & H).
  exists b, s'. split; [exact Hr|exact H].
Qed.

Lemma ac3_safe_witness :
  exists b s',
    ac3 None Examples.creator3 = Some (Ok (b, s'))
    /\ wf_creator s' /\ node_consistent s'.
Proof.
  assert (Hwf : wf_creator Examples.creator3
                /\ node_consistent Examples.creator3).
  { apply enforce_node_consistency_wf, init_wf, crossword3_wf. }
  apply (@ac3_safe None Examples.creator3 (proj1 Hwf) (proj2 Hwf)).
  apply all_arcs_ok. exact (proj1 Hwf).
Defined.

(** ** [consistent]: exactly when it answers true *)

Lemma check_neighbors_agree (c : Crossword) (a : Assignment) (var : Var)
    (w : string) (ns : list Var) :
  (forall n, In n ns ->
     exists w' x_i y_i,
       aget n a = Some (Some w') /\ overlaps c var n = Some (x_i, y_i)
       /\ agree x_i y_i w w') ->
  check_neighbors c a var (Some w) ns = Ok true.
Proof.
  induction ns as [|n ns IH]; simpl; intros H; [reflexivity|].
  destruct (H n (or_introl eq_refl)) as (w' & x_i & y_i & Hg & Ho & ch & Hx & Hy).
  rewrite Hg. simpl. rewrite Ho. simpl. unfold getitem. rewrite Hx, Hy. simpl.
  rewrite Ascii.eqb_refl. simpl. apply IH. intros n0 Hn0. apply H. right. exact Hn0.
Qed.

Lemma not_In_existsb_pyword (word : pyword) (l : list pyword) :
  ~ In word l -> existsb (pyword_eqb word) l = false.
Proof.
  intros H. destruct (existsb (pyword_eqb word) l) eqn:E; [|reflexivity].
  apply existsb_exists in E. destruct E as [x [Hx Heq]].
  apply pyword_eqb_eq in Heq. subst x. contradiction.
Qed.

Lemma consistent_loop_agree (c : Crossword) (a : Assignment)
    (items : list (Var * pyword)) :
  forall present_words,
    NoDup (present_words ++ map snd items) ->
    (forall v word, In (v, word) items ->
       exists w, word = Some w /\ String.length w = var_length v
         /\ forall n, In n (neighbors c v) ->
              exists w' x_i y_i,
                aget n a = Some (Some w') /\ overlaps c v n = Some (x_i, y_i)
                /\ agree x_i y_i w w') ->
    consistent_loop c a items present_words = Ok true.
Proof.
  induction items as [|[var word] rest IH]; simpl; intros pw Hnd H; [reflexivity|].
  rewrite not_In_existsb_pyword.
  2:{ apply NoDup_remove_2 in Hnd. intros Hin. apply Hnd.
      apply in_or_app. left. exact Hin. }
  destruct (H var word (or_introl eq_refl)) as (w & -> & Hlen & Hns).
  simpl. rewrite Hlen, Nat.eqb_refl. simpl.
  rewrite (@check_neighbors_agree c a var w _ Hns). simpl.
  apply IH.
  - rewrite <- app_assoc. exact Hnd.
  - intros v word Hin. apply H. right. exact Hin.
Qed.

(** X10: [consistent] answers True exactly for the assignments in which
    every entry is a word of the length of its slot, no word is used twice,
    and every neighbor of every assigned slot is assigned too, with a word
    that agrees on the shared cell. *)
Theorem consistent_True_iff (s : CrosswordCreator) (a : Assignment) :
  consistent s a = Ok true
  <-> NoDup (Dict.values a)
      /\ forall v word, In (v, word) a ->
           exists w, word = Some w /\ String.length w = var_length v
             /\ forall n, In n (neighbors (crossword s) v) ->
                  exists w' x_i y_i,
                    aget n a = Some (Some w')
                    /\ overlaps (crossword s) v n = Some (x_i, y_i)
                    /\ agree x_i y_i w w'.
Proof.
  unfold consistent, Dict.items, Dict.values. split.
  - intros H. apply consistent_loop_true in H. destruct H as [Hnd Hall].
    split; [exact (Hnd (NoDup_nil _))|].
    intros v word Hin. destruct (Hall v word Hin) as (w & -> & Hlen & Hc).
    exists w. split; [reflexivity|]. split; [exact Hlen|].
    intros n Hn.
    destruct (check_neighbors_true _ _ _ _ _ Hc n Hn) as (nw & Hg & Hcase).
    pose proof (get_Some_In Var_eqb Var_eqb_eq _ _ Hg) as Hnin.
    destruct (Hall n nw Hnin) as (w' & -> & _).
    destruct Hcase as [Hnone|(w'' & x_i & y_i & Heq & Ho & Hag)]; [discriminate|].
    injection Heq as <-. exists w', x_i, y_i. auto.
  - intros [Hnd H]. apply consistent_loop_agree; [exact Hnd|exact H].
Qed.

(** ** [order_domain_values]: the order it returns *)

Lemma count_neighbor_get (a : Assignment) (bv : Dict.t string nat) (n : Var)
    (w : string) :
  Dict.get String.eqb w (count_neighbor a bv n)
  = match Dict.get String.eqb w bv with
    | Some k => Some (if assigned_to a w n then k + 1 else k)
    | None => None
    end.
Proof.
  unfold count_neighbor, assigned_to.
  destruct (aget n a) as [[w'|]|]; try (destruct (Dict.get String.eqb w bv); reflexivity).
  destruct (String.eqb w' w) eqn:E.
  - apply String.eqb_eq in E. subst w'.
    destruct (Dict.get String.eqb w bv) as [k|] eqn:Eg; [|rewrite Eg; reflexivity].
    apply (get_set_same String.eqb String.eqb_eq).
  - assert (Hne : w <> w').
    { intros ->. rewrite String.eqb_refl in E. discriminate. }
    destruct (Dict.get String.eqb w' bv) as [m|].
    + rewrite (get_set_other String.eqb String.eqb_eq) by exact Hne.
      destruct (Dict.get String.eqb w bv); reflexivity.
    + destruct (Dict.get String.eqb w bv); reflexivity.
Qed.

Lemma count_neighbors_get (a : Assignment) (ns : list Var) (w : string) :
  forall (bv : Dict.t string nat) (k : nat),
    Dict.get String.eqb w bv = Some k ->
    Dict.get String.eqb w (fold_left (count_neighbor a) ns bv)
    = Some (k + List.length (filter (assigned_to a w) ns)).
Proof.
  induction ns as [|n ns IH]; simpl; intros bv k H.
  - rewrite H. apply f_equal. lia.
  - rewrite (IH _ (if assigned_to a w n then k + 1 else k)).
    + destruct (assigned_to a w n); simpl; apply f_equal; lia.
    + rewrite count_neighbor_get, H. reflexivity.
Qed.

Lemma best_value_init (domain : list string) :
  forall acc : Dict.t string nat,
    let bv := fold_left (fun d value => Dict.set String.eqb value 0 d) domain acc in
    (NoDup (Dict.keys acc) -> NoDup (Dict.keys bv))
    /\ (forall w, In w domain -> Dict.get String.eqb w bv = Some 0)
    /\ (NoDup (Dict.keys acc ++ domain) -> Dict.keys bv = Dict.keys acc ++ domain).
Proof.
  induction domain as [|v domain IH]; simpl; intros acc.
  - split; [auto|]. split; [contradiction|]. rewrite app_nil_r. reflexivity.
  - destruct (IH (Dict.set String.eqb v 0 acc)) as (Hnd & Hget & Hkeys).
    split; [|split].
    + intros H. apply Hnd. apply set_keys_NoDup; [exact String.eqb_eq|exact H].
    + intros w [<-|Hw]; [|auto].
      destruct (in_dec string_dec v domain) as [Hin|Hin]; [auto|].
      clear -Hin. revert acc.
      assert (Hgen : forall acc : Dict.t string nat,
                 Dict.get String.eqb v acc = Some 0 ->
                 Dict.get String.eqb v
                   (fold_left (fun d value => Dict.set String.eqb value 0 d)
                              domain acc) = Some 0).
      { induction domain as [|u domain IHd]; simpl; intros acc H; [exact H|].
        apply IHd; [intros Hu; apply Hin; right; exact Hu|].
        rewrite (get_set_other String.eqb String.eqb_eq); [exact H|].
        intros ->. apply Hin. left. reflexivity. }
      intros acc. apply Hgen. apply (get_set_same String.eqb String.eqb_eq).
    + intros H.
      assert (Hv : ~ In v (Dict.keys acc)).
      { apply NoDup_remove_2 in H. intros Hin. apply H. apply in_or_app. auto. }
      rewrite Hkeys.
      * rewrite (set_absent String.eqb String.eqb_eq) by exact Hv.
        unfold Dict.keys. rewrite map_app, <- app_assoc. reflexivity.
      * rewrite (set_absent String.eqb String.eqb_eq) by exact Hv.
        unfold Dict.keys in *. rewrite map_app, <- app_assoc. simpl. exact H.
Qed.

Lemma insert_by_NoDup (key : string -> nat) (x : string) (l : list string) :
  NoDup l -> ~ In x l -> NoDup (insert_by key x l).
Proof.
  induction l as [|y l IH]; simpl; intros Hnd Hx.
  - constructor; [simpl; tauto|constructor].
  - destruct (key x <=? key y).
    + constructor; [simpl; tauto|exact Hnd].
    + inversion Hnd as [|? ? Hy Hl]; subst. constructor.
      * rewrite insert_by_In. intros [->|H]; [apply Hx; left; reflexivity|auto].
      * apply IH; [exact Hl|]. intros H. apply Hx. right. exact H.
Qed.

Lemma sort_by_NoDup (key : string -> nat) (l : list string) :
  NoDup l -> NoDup (sort_by key l).
Proof.
  unfold sort_by. induction l as [|x l IH]; simpl; intros Hnd; [constructor|].
  inversion Hnd as [|? ? Hx Hl]; subst.
  apply insert_by_NoDup; [auto|]. intros H. apply Hx.
  apply (sort_by_In key x l). exact H.
Qed.

Lemma insert_by_ascending (key : string -> nat) (x : string) (l : list string) :
  ascending key l -> ascending key (insert_by key x l).
Proof.
  induction l as [|y l IH]; simpl; intros H.
  - split; [contradiction|exact I].
  - destruct H as [Hy Hl]. destruct (key x <=? key y) eqn:E; simpl.
    + apply Nat.leb_le in E. split; [|split; assumption].
      intros z [<-|Hz]; [exact E|]. specialize (Hy z Hz). lia.
    + apply Nat.leb_gt in E. split; [|apply IH; exact Hl].
      intros z Hz. apply insert_by_In in Hz. destruct Hz as [->|Hz]; [lia|auto].
Qed.

Lemma sort_by_ascending (key : string -> nat) (l : list string) :
  ascending key (sort_by key l).
Proof.
  unfold sort_by. induction l as [|x l IH]; simpl; [exact I|].
  apply insert_by_ascending. exact IH.
Qed.

Lemma ascending_ext (key key' : string -> nat) (l : list string) :
  (forall x, In x l -> key x = key' x) -> ascending key l -> ascending key' l.
Proof.
  induction l as [|x l IH]; simpl; intros Hext H; [exact I|].
  destruct H as [Hx Hl]. split.
  - intros y Hy. rewrite <- (Hext x (or_introl eq_refl)), <- (Hext y (or_intror Hy)).
    auto.
  - apply IH; auto.
Qed.

Lemma sort_by_sorted (key : string -> nat) (l : list string) :
  ascending key l -> sort_by key l = l.
Proof.
  unfold sort_by. induction l as [|x l IH]; simpl; intros H; [reflexivity|].
  destruct H as [Hx Hl]. rewrite (IH Hl).
  destruct l as [|y l]; simpl; [reflexivity|].
  assert (E : (key x <=? key y) = true)
    by (apply Nat.leb_le, Hx; left; reflexivity).
  rewrite E. reflexivity.
Qed.

(** The dictionary [best_value] and the list its keys are sorted into. *)
Lemma order_domain_values_Ok (s : CrosswordCreator) (var : Var) (a : Assignment)
    (domain : list string) :
  dget var (domains s) = Some domain ->
  exists best_value,
    order_domain_values s var a
    = Ok (sort_by (fun x => match Dict.get String.eqb x best_value with
                            | Some n => n
                            | None => 0
                            end) (Dict.keys best_value))
    /\ NoDup (Dict.keys best_value)
    /\ (forall w, In w (Dict.keys best_value) <-> In w domain)
    /\ (forall w, In w domain ->
          Dict.get String.eqb w best_value
          = Some (lcv_cost (crossword s) a var w))
    /\ (NoDup domain -> Dict.keys best_value = domain).
Proof.
  intros Hd. unfold order_domain_values. rewrite Hd. simpl.
  eexists. split; [reflexivity|].
  destruct (best_value_init domain []) as (Hnd & Hget & Hkeys).
  rewrite count_neighbors_keys. split; [apply Hnd; constructor|].
  split; [|split].
  - intros w. rewrite best_value_keys. simpl. tauto.
  - intros w Hw. rewrite (count_neighbors_get a _ w _ (Hget w Hw)). reflexivity.
  - intros H. apply Hkeys. exact H.
Qed.

(** X11: for a slot that has a domain, [order_domain_values] returns the
    words of the domain, each once, in ascending order of the number of
    neighbors of the slot that are assigned that very word. *)
Theorem order_domain_values_spec (s : CrosswordCreator) (var : Var)
    (a : Assignment) (domain : list string) :
  dget var (domains s) = Some domain ->
  exists vals,
    order_domain_values s var a = Ok vals
    /\ NoDup vals
    /\ (forall w, In w vals <-> In w domain)
    /\ ascending (lcv_cost (crossword s) a var) vals.
Proof.
  intros Hd.
  destruct (order_domain_values_Ok s var a Hd) as (bv & -> & Hnd & Hin & Hget & _).
  eexists. split; [reflexivity|]. split; [|split].
  - apply sort_by_NoDup. exact Hnd.
  - intros w. rewrite sort_by_In. apply Hin.
  - eapply ascending_ext; [|apply sort_by_ascending].
    intros x Hx. simpl. apply sort_by_In, Hin in Hx.
    rewrite (Hget x Hx). reflexivity.
Qed.

Lemma order_domain_values_spec_witness :
  exists vals,
    order_domain_values Examples.creator3 Examples.A
      [(Examples.B, Some "co"%string)] = Ok vals
    /\ NoDup vals
    /\ (forall w, In w vals <-> In w ["cat"; "dog"]%string)
    /\ ascending (lcv_cost Examples.crossword3 [(Examples.B, Some "co"%string)]
                           Examples.A) vals.
Proof.
  apply (@order_domain_values_spec Examples.creator3 Examples.A
           [(Examples.B, Some "co"%string)] ["cat"; "dog"]%string).
  reflexivity.
Defined.

Lemma insert_by_filter (key : string -> nat) (k : nat) (x : string)
    (l : list string) :
  filter (fun w => key w =? k) (insert_by key x l)
  = if key x =? k then x :: filter (fun w => key w =? k) l
    else filter (fun w => key w =? k) l.
Proof.
  induction l as [|y l IH]; simpl; [reflexivity|].
  destruct (key x <=? key y) eqn:E; simpl; [reflexivity|].
  apply Nat.leb_gt in E. rewrite IH.
  destruct (key y =? k) eqn:Ey; [|reflexivity].
  apply Nat.eqb_eq in Ey.
  assert (Ex : (key x =? k) = false) by (apply Nat.eqb_neq; lia).
  rewrite Ex. reflexivity.
Qed.

Lemma sort_by_filter (key : string -> nat) (k : nat) (l : list string) :
  filter (fun w => key w =? k) (sort_by key l) = filter (fun w => key w =? k) l.
Proof.
  unfold sort_by. induction l as [|x l IH]; simpl; [reflexivity|].
  rewrite insert_by_filter, IH. reflexivity.
Qed.

(** X12: the sort of [order_domain_values] is stable: for a domain without
    duplicates, the words of any one cost come out in the order they have in
    the domain. *)
Theorem order_domain_values_stable (s : CrosswordCreator) (var : Var)
    (a : Assignment) (domain : list string) :
  dget var (domains s) = Some domain ->
  NoDup domain ->
  exists vals,
    order_domain_values s var a = Ok vals
    /\ forall k,
        filter (fun w => lcv_cost (crossword s) a var w =? k) vals
        = filter (fun w => lcv_cost (crossword s) a var w =? k) domain.
Proof.
  intros Hd Hnd.
  destruct (order_domain_values_Ok s var a Hd) as (bv & -> & _ & _ & Hget & Hkeys).
  rewrite (Hkeys Hnd). eexists. split; [reflexivity|]. intros k.
  set (key := fun x => match Dict.get String.eqb x bv with
                       | Some n => n
                       | None => 0
                       end).
  assert (Hkey : forall w, In w domain ->
                   (lcv_cost (crossword s) a var w =? k) = (key w =? k)).
  { intros w Hw. unfold key. rewrite (Hget w Hw). reflexivity. }
  rewrite (filter_ext_in _ (fun w => key w =? k) (sort_by key domain)).
  - rewrite sort_by_filter. symmetry. apply filter_ext_in. exact Hkey.
  - intros w Hw. apply Hkey. apply (sort_by_In key w domain). exact Hw.
Qed.

Lemma order_domain_values_stable_witness :
  exists vals,
    order_domain_values
      {| crossword := Examples.crossword3;
         domains := dset Examples.A ["cat"; "dog"; "cot"]%string
                      (domains Examples.creator3) |}
      Examples.A [(Examples.B, Some "cat"%string)] = Ok vals
    /\ vals = ["dog"; "cot"; "cat"]%string
    /\ forall k,
        filter (fun w => lcv_cost Examples.crossword3
                           [(Examples.B, Some "cat"%string)] Examples.A w =? k)
               vals
        = filter (fun w => lcv_cost Examples.crossword3
                             [(Examples.B, Some "cat"%string)] Examples.A w =? k)
                 ["cat"; "dog"; "cot"]%string.
Proof.
  destruct (@order_domain_values_stable
              {| crossword := Examples.crossword3;
                 domains := dset Examples.A ["cat"; "dog"; "cot"]%string
                              (domains Examples.creator3) |}
              Examples.A [(Examples.B, Some "cat"%string)]
              ["cat"; "dog"; "cot"]%string eq_refl) as (vals & Hv & Hk).
  - repeat constructor; simpl; intuition discriminate.
  - exists vals. split; [exact Hv|]. split; [|exact Hk].
    assert (Hc : order_domain_values
                   {| crossword := Examples.crossword3;
                      domains := dset Examples.A ["cat"; "dog"; "cot"]%string
                                   (domains Examples.creator3) |}
                   Examples.A [(Examples.B, Some "cat"%string)]
                 = Ok ["dog"; "cot"; "cat"]%string) by reflexivity.
    congruence.
Defined.

(** ** [select_unassigned_variable]: its choice and its exceptions *)

(** X13: the slot [select_unassigned_variable] returns is a slot of the
    crossword without an entry in the assignment, and no such slot has fewer
    words left in its domain. *)
Theorem select_unassigned_variable_mrv (s : CrosswordCreator) (a : Assignment)
    (g g' : rng) (v : Var) :
  select_unassigned_variable s a g = Ok (v, g') ->
  In v (variables (crossword s))
  /\ aget v a = None
  /\ forall u, In u (variables (crossword s)) -> aget u a = None ->
               domain_size s v <= domain_size s u.
Proof.
  intros H. apply select_unassigned_variable_spec in H.
  destruct H as (Hv & Hmin & _). apply unassigned_In in Hv.
  destruct Hv as [Hv Hm]. split; [exact Hv|]. split.
  - unfold Dict.mem in Hm. unfold aget.
    destruct (Dict.get Var_eqb v a); [discriminate|reflexivity].
  - intros u Hu Hg. apply Hmin. apply unassigned_In. split; [exact Hu|].
    unfold Dict.mem. unfold aget in Hg. rewrite Hg. reflexivity.
Qed.

Lemma select_unassigned_variable_mrv_witness :
  exists v g',
    select_unassigned_variable Examples.creator3
      [(Examples.B, Some "co"%string)] (Examples.const_rng 0) = Ok (v, g')
    /\ In v (variables Examples.crossword3)
    /\ aget v [(Examples.B, Some "co"%string)] = None.
Proof.
  eexists. eexists. split; [reflexivity|].
  pose (H := @select_unassigned_variable_mrv Examples.creator3
               [(Examples.B, Some "co"%string)] (Examples.const_rng 0)
               _ _ eq_refl).
  split; [exact (proj1 H)|exact (proj1 (proj2 H))].
Defined.

(** X14: when exactly one slot is unassigned and it has a domain,
    [select_unassigned_variable] returns that slot and draws nothing from
    the random source. *)
Theorem select_unassigned_variable_last (s : CrosswordCreator) (a : Assignment)
    (g : rng) (u : Var) :
  unassigned s a = [u] ->
  dget u (domains s) <> None ->
  select_unassigned_variable s a g = Ok (u, g).
Proof.
  intros Hu Hd.
  destruct (@select_unassigned_variable_defined s a g) as (v & g' & Hsel).
  { rewrite Hu. discriminate. }
  { intros v Hv. rewrite Hu in Hv. destruct Hv as [<-|[]]. exact Hd. }
  rewrite Hsel. pose proof Hsel as H.
  apply select_unassigned_variable_Ok in H. destruct H as (mrv & Hmrv & Hcase).
  destruct Hcase as [(_ & Hnth & ->)|(Hlen & _)].
  - apply nth_error_In, Hmrv in Hnth. destruct Hnth as [Hin _].
    rewrite Hu in Hin. destruct Hin as [<-|[]]. reflexivity.
  - rewrite Hu in Hlen. simpl in Hlen. congruence.
Qed.

Lemma select_unassigned_variable_last_witness :
  select_unassigned_variable Examples.creator3
    [(Examples.B, Some "co"%string); (Examples.C, Some "to"%string)]
    (Examples.const_rng 1)
  = Ok (Examples.A, Examples.const_rng 1).
Proof.
  apply select_unassigned_variable_last; [reflexivity|discriminate].
Defined.

Lemma number_of_values_KeyError (s : CrosswordCreator) (l : list Var) :
  forall acc : Dict.t Var nat,
    (exists u, In u l /\ dget u (domains s) = None) ->
    dict_comp Var_eqb
      (fun variable =>
         d <- or_raise KeyError (dget variable (domains s)) ;; Ok (List.length d))
      l acc = Raise KeyError.
Proof.
  induction l as [|k l IH]; simpl; intros acc [u [Hu Hd]]; [contradiction|].
  destruct (dget k (domains s)) as [d|] eqn:Ek; simpl; [|reflexivity].
  apply IH. exists u. split; [|exact Hd].
  destruct Hu as [->|Hu]; [congruence|exact Hu].
Qed.

Lemma all_or_missing (s : CrosswordCreator) (l : list Var) :
  (forall v, In v l -> dget v (domains s) <> None)
  \/ exists u, In u l /\ dget u (domains s) = None.
Proof.
  induction l as [|k l IH]; [left; intros v []|].
  destruct (dget k (domains s)) as [d|] eqn:Ek.
  - destruct IH as [IH|[u [Hu Hd]]].
    + left. intros v [<-|Hv]; [congruence|auto].
    + right. exists u. split; [right; exact Hu|exact Hd].
  - right. exists k. split; [left; reflexivity|exact Ek].
Qed.

(** X15: the exceptions of [select_unassigned_variable].  It raises
    IndexError exactly when no slot is unassigned (the choice is made from
    an empty list), KeyError exactly when an unassigned slot has no domain,
    and nothing else. *)
Theorem select_unassigned_variable_raises (s : CrosswordCreator) (a : Assignment)
    (g : rng) (e : exn) :
  select_unassigned_variable s a g = Raise e
  <-> (e = IndexError /\ unassigned s a = [])
      \/ (e = KeyError
          /\ exists u, In u (unassigned s a) /\ dget u (domains s) = None).
Proof.
  assert (Hempty : unassigned s a = [] ->
                   select_unassigned_variable s a g = Raise IndexError).
  { intros H. unfold select_unassigned_variable. rewrite H. reflexivity. }
  assert (Hmiss : (exists u, In u (unassigned s a) /\ dget u (domains s) = None) ->
                  select_unassigned_variable s a g = Raise KeyError).
  { intros H. unfold select_unassigned_variable.
    rewrite (number_of_values_KeyError s _ [] H). reflexivity. }
  split.
  - intros H. destruct (unassigned s a) as [|u0 rest] eqn:Eu.
    + left. rewrite (Hempty eq_refl) in H. injection H as <-. auto.
    + right. rewrite <- Eu in *.
      destruct (all_or_missing s (unassigned s a)) as [Hall|Hex].
      * destruct (@select_unassigned_variable_defined s a g) as (v & g' & Hsel);
          [rewrite Eu; discriminate|exact Hall|congruence].
      * rewrite (Hmiss Hex) in H. injection H as <-. auto.
  - intros [[-> H]|[-> H]]; auto.
Qed.

(** ** [backtrack]: what it adds to the assignment *)

Lemma try_values_result_In
    (rec : Assignment -> rng -> option (res (option Assignment * rng)))
    (P : Assignment -> Prop) (a : Assignment) (v : Var) :
  forall vals,
    (forall w g r g', In w vals ->
       rec (aset v (Some w) a) g = Some (Ok (Some r, g')) -> P r) ->
    forall g r g', try_values rec a v vals g = Some (Ok (Some r, g')) -> P r.
Proof.
  induction vals as [|w vals IH]; simpl; intros Hrec g r g' H; [discriminate|].
  destruct (rec (aset v (Some w) a) g) as [[[[r1|] g1]|e]|] eqn:E;
    try discriminate.
  - injection H as <- <-. exact (Hrec w g _ _ (or_introl eq_refl) E).
  - refine (IH _ _ _ _ H). intros w0 g0 r0 g0' Hw0. apply Hrec. right. exact Hw0.
Qed.

Lemma aget_aset_same (v : Var) (w : pyword) (a : Assignment) :
  aget v (aset v w a) = Some w.
Proof. apply get_set_same, Var_eqb_eq. Qed.

Lemma aget_aset_other (v k : Var) (w : pyword) (a : Assignment) :
  k <> v -> aget k (aset v w a) = aget k a.
Proof. apply get_set_other, Var_eqb_eq. Qed.

Lemma mem_false_aget (v : Var) (a : Assignment) :
  Dict.mem Var_eqb v a = false <-> aget v a = None.
Proof.
  unfold Dict.mem, aget. destruct (Dict.get Var_eqb v a); split; congruence.
Qed.

Lemma extends_refl (s : CrosswordCreator) (a : Assignment) : extends s a a.
Proof. split; auto. Qed.

Lemma extends_step (s : CrosswordCreator) (a r : Assignment) (v : Var)
    (w : string) (d : list string) :
  In v (unassigned s a) -> dget v (domains s) = Some d -> In w d ->
  extends s (aset v (Some w) a) r -> extends s a r.
Proof.
  intros Hv Hd Hw [Hkeep Hnew]. apply unassigned_In in Hv.
  destruct Hv as [Hvar Hm]. apply mem_false_aget in Hm. split.
  - intros k word Hk. apply Hkeep. rewrite aget_aset_other; [exact Hk|].
    intros ->. congruence.
  - intros k word Hk. destruct (Hnew k word Hk) as [Hold|(Hnone & Hkv & Hex)].
    + destruct (Var_eq_dec k v) as [->|Hne].
      * rewrite aget_aset_same in Hold. injection Hold as <-.
        right. split; [exact Hm|]. split; [exact Hvar|]. eauto.
      * rewrite aget_aset_other in Hold by exact Hne. auto.
    + right. split; [|auto]. destruct (Var_eq_dec k v) as [->|Hne].
      * rewrite aget_aset_same in Hnone. discriminate.
      * rewrite aget_aset_other in Hnone by exact Hne. exact Hnone.
Qed.

Lemma backtrack_extends (fuel : nat) :
  forall (s : CrosswordCreator) (a : Assignment) (g : rng) r g',
    backtrack fuel s a g = Some (Ok (Some r, g')) ->
    extends s a r /\ (NoDup (Dict.keys a) -> NoDup (Dict.keys r)).
Proof.
  induction fuel as [|fuel IH]; intros s a g r g' H; simpl in H; [discriminate|].
  destruct (assignment_complete s a).
  - destruct (consistent s a) as [[|]|e]; try discriminate.
    injection H as <- <-. split; [apply extends_refl|auto].
  - destruct (select_unassigned_variable s a g) as [[v g1]|e] eqn:Es;
      [|discriminate].
    destruct (order_domain_values s v a) as [vals|e] eqn:Eo; [|discriminate].
    apply select_unassigned_variable_spec in Es. destruct Es as [Hv _].
    apply order_domain_values_In in Eo. destruct Eo as (d & Hd & Hvals).
    refine (@try_values_result_In (backtrack fuel s)
              (fun r => extends s a r
                        /\ (NoDup (Dict.keys a) -> NoDup (Dict.keys r)))
              a v vals _ g1 r g' H).
    intros w g0 r0 g0' Hw Hr. destruct (IH _ _ _ _ _ Hr) as [Hext Hnd]. split.
    + exact (@extends_step s a r0 v w d Hv Hd (Hvals w Hw) Hext).
    + intros Ha. apply Hnd. unfold aset.
      apply set_keys_NoDup; [exact Var_eqb_eq|exact Ha].
Qed.

(** X16: [backtrack] only adds to the assignment it is given: the
    assignment it returns has every entry of the given one unchanged, every
    other entry is a slot of the crossword with a word of that slot's domain,
    and it is a dictionary when the given one is. *)
Theorem backtrack_extends_assignment (fuel : nat) (s : CrosswordCreator)
    (a r : Assignment) (g g' : rng) :
  backtrack fuel s a g = Some (Ok (Some r, g')) ->
  (forall k word, aget k a = Some word -> aget k r = Some word)
  /\ (forall k word, aget k r = Some word -> aget k a = None ->
        In k (variables (crossword s))
        /\ exists w d, word = Some w /\ dget k (domains s) = Some d /\ In w d)
  /\ (NoDup (Dict.keys a) -> NoDup (Dict.keys r)).
Proof.
  intros H. destruct (backtrack_extends _ _ _ _ H) as [[Hkeep Hnew] Hnd].
  split; [exact Hkeep|]. split; [|exact Hnd].
  intros k word Hk Hnone. destruct (Hnew k word Hk) as [Hold|(_ & Hv & Hex)].
  - congruence.
  - auto.
Qed.

Lemma backtrack_extends_assignment_witness :
  exists r g',
    backtrack 3 Examples.creator3 [(Examples.B, Some "co"%string)]
      (Examples.const_rng 0) = Some (Ok (Some r, g'))
    /\ aget Examples.B r = Some (Some "co"%string).
Proof.
  eexists. eexists. split; [reflexivity|].
  refine (proj1 (@backtrack_extends_assignment 3 Examples.creator3
                   [(Examples.B, Some "co"%string)] _ (Examples.const_rng 0) _
                   eq_refl) Examples.B _ eq_refl).
Defined.

(** ** [solve]: the shape of a result *)

Lemma solve_Some (s : CrosswordCreator) (g : rng) (a : Assignment) :
  solve s g = Some (Ok (Some a)) ->
  exists b s2 fuel g',
    ac3 None (enforce_node_consistency s) = Some (Ok (b, s2))
    /\ backtrack fuel s2 [] g = Some (Ok (Some a, g')).
Proof.
  unfold solve. intros H.
  destruct (ac3 None (enforce_node_consistency s)) as [[[b s2]|e]|];
    try discriminate.
  destruct (backtrack (S (List.length (unassigned s2 []))) s2 [] g)
    as [[[result g']|e]|] eqn:Eb; try discriminate.
  injection H as ->. eauto 10.
Qed.

(** X17: an assignment returned by [solve] on a new creator is a dictionary
    whose keys are exactly the slots of the crossword, and every word in it
    is a word of the vocabulary. *)
Theorem solve_result_vocabulary (c : Crossword) (g : rng) (a : Assignment) :
  solve (init c) g = Some (Ok (Some a)) ->
  NoDup (Dict.keys a)
  /\ (forall k, In k (Dict.keys a) <-> In k (variables c))
  /\ forall k w, aget k a = Some (Some w) -> In w (words c).
Proof.
  intros H. apply solve_Some in H.
  destruct H as (b & s2 & fuel & g' & Hac & Hbt).
  assert (Hc2 : crossword s2 = c).
  { unfold ac3 in Hac. apply ac3_loop_crossword in Hac. exact Hac. }
  destruct (backtrack_extends _ _ _ _ Hbt) as [[_ Hnew] Hnd].
  apply backtrack_sound in Hbt. destruct Hbt as [Hcomp _].
  rewrite assignment_complete_true, Hc2 in Hcomp.
  assert (Hentry : forall k word, aget k a = Some word ->
            In k (variables c)
            /\ exists w d, word = Some w /\ dget k (domains s2) = Some d /\ In w d).
  { intros k word Hk. destruct (Hnew k word Hk) as [Hold|(_ & Hv & Hex)].
    - discriminate.
    - rewrite Hc2 in Hv. auto. }
  split; [apply Hnd; constructor|]. split.
  - intros k. split.
    + intros Hk. destruct (aget k a) as [word|] eqn:Ek.
      * exact (proj1 (Hentry k word Ek)).
      * apply (get_None_keys Var_eqb Var_eqb_eq) in Ek. contradiction.
    + intros Hk. destruct (Hcomp k Hk) as [word Hg].
      apply (mem_keys Var_eqb Var_eqb_eq). unfold Dict.mem.
      unfold aget in Hg. rewrite Hg. reflexivity.
  - intros k w Hk. destruct (Hentry k _ Hk) as (Hv & w' & d2 & Hw & Hd2 & Hin).
    injection Hw as <-. unfold ac3 in Hac.
    destruct (proj2 (ac3_loop_shrinks _ _ _ Hac) k d2 Hd2) as (d1 & Hd1 & Hincl & _).
    rewrite (enforce_node_consistency_domains (init c)) in Hd1.
    2:{ apply (proj2 (init_keys (words c) (variables c) [])). constructor. }
    rewrite dget_map_entries in Hd1. unfold init in Hd1; simpl in Hd1.
    rewrite init_fold_dget in Hd1.
    destruct (in_dec Var_eq_dec k (variables c)); [|contradiction].
    simpl in Hd1. injection Hd1 as <-.
    apply Hincl, node_filter_In in Hin. tauto.
Qed.

Lemma solve_result_vocabulary_witness :
  exists a,
    solve (init Examples.crossword3) (Examples.const_rng 0) = Some (Ok (Some a))
    /\ NoDup (Dict.keys a)
    /\ (forall k, In k (Dict.keys a) <-> In k (variables Examples.crossword3))
    /\ forall k w, aget k a = Some (Some w) -> In w (words Examples.crossword3).
Proof.
  eexists. split; [reflexivity|].
  apply (@solve_result_vocabulary Examples.crossword3 (Examples.const_rng 0)).
  reflexivity.
Defined.

(** ** The search is exhaustive *)

Lemma follows_values_NoDup (c : Crossword) (sigma : Var -> string) (a : Assignment) :
  filling c sigma -> follows c sigma a -> NoDup (map snd a).
Proof.
  intros (_ & Hinj & _) [Hnd Hent]. induction a as [|[v word] a IH]; simpl.
  - constructor.
  - simpl in Hnd. inversion Hnd as [|? ? Hv Hnd']; subst. constructor.
    + intros Hin. apply in_map_iff in Hin. destruct Hin as [[v' word'] [Heq Hin']].
      simpl in Heq. subst word'.
      destruct (Hent v word (or_introl eq_refl)) as [Hvar ->].
      destruct (Hent v' _ (or_intror Hin')) as [Hvar' Heq].
      destruct (Var_eq_dec v v') as [->|Hne].
      * apply Hv. apply (in_map fst) in Hin'. exact Hin'.
      * apply (Hinj v v' Hvar Hvar' Hne). congruence.
    + apply IH; [exact Hnd'|]. intros v0 w0 H0. apply Hent. right. exact H0.
Qed.

Lemma follows_consistent (s : CrosswordCreator) (sigma : Var -> string)
    (a : Assignment) :
  wf_crossword (crossword s) -> filling (crossword s) sigma ->
  follows (crossword s) sigma a ->
  assignment_complete s a = true ->
  consistent s a = Ok true.
Proof.
  intros [_ Hnb] Hfill Hfol Hcomp.
  pose proof (follows_values_NoDup Hfill Hfol) as Hnd.
  destruct Hfill as (Hlen & _ & Hov). destruct Hfol as [_ Hent].
  rewrite assignment_complete_true in Hcomp.
  unfold consistent, Dict.items. apply consistent_loop_agree; [exact Hnd|].
  intros v word Hin. destruct (Hent v word Hin) as [Hv ->].
  exists (sigma v). split; [reflexivity|]. split; [exact (Hlen v Hv)|].
  intros n Hn. destruct (Hnb v n Hv Hn) as (Hnv & _).
  destruct (Hcomp n Hnv) as [nw Hg].
  destruct (Hent n nw (get_Some_In Var_eqb Var_eqb_eq _ _ Hg)) as [_ ->].
  destruct (Hov v n Hv Hn) as (x_i & y_i & Ho & Hag).
  exists (sigma n), x_i, y_i. auto.
Qed.

Lemma try_values_None
    (rec : Assignment -> rng -> option (res (option Assignment * rng)))
    (a : Assignment) (v : Var) :
  forall vals g g',
    try_values rec a v vals g = Some (Ok (None, g')) ->
    forall w, In w vals ->
              exists g0 g1, rec (aset v (Some w) a) g0 = Some (Ok (None, g1)).
Proof.
  induction vals as [|w0 vals IH]; simpl; intros g g' H w Hw; [contradiction|].
  destruct (rec (aset v (Some w0) a) g) as [[[[r1|] g1]|e]|] eqn:E;
    try discriminate.
  destruct Hw as [<-|Hw]; [eauto|exact (IH _ _ H w Hw)].
Qed.

Lemma follows_aset (c : Crossword) (sigma : Var -> string) (a : Assignment)
    (v : Var) :
  follows c sigma a -> In v (variables c) ->
  follows c sigma (aset v (Some (sigma v)) a).
Proof.
  intros [Hnd Hent] Hv. split.
  - unfold aset. apply set_keys_NoDup; [exact Var_eqb_eq|exact Hnd].
  - intros k word Hin. apply aset_In in Hin. destruct Hin as [Heq|Hin].
    + injection Heq as -> ->. auto.
    + exact (Hent k word Hin).
Qed.

Lemma backtrack_complete (sigma : Var -> string) (fuel : nat) :
  forall (s : CrosswordCreator) (a : Assignment) (g : rng) result g',
    wf_crossword (crossword s) -> filling (crossword s) sigma ->
    within s sigma -> follows (crossword s) sigma a ->
    backtrack fuel s a g = Some (Ok (result, g')) ->
    result <> None.
Proof.
  induction fuel as [|fuel IH]; intros s a g result g' Hwf Hfill Hin Hfol H;
    simpl in H; [discriminate|].
  destruct (assignment_complete s a) eqn:Ec.
  - rewrite (@follows_consistent s sigma a Hwf Hfill Hfol Ec) in H.
    injection H as <- _. discriminate.
  - destruct (select_unassigned_variable s a g) as [[v g1]|e] eqn:Es;
      [|discriminate].
    destruct (order_domain_values s v a) as [vals|e] eqn:Eo; [|discriminate].
    apply select_unassigned_variable_spec in Es. destruct Es as [Hv _].
    apply unassigned_In in Hv. destruct Hv as [Hv _].
    destruct (Hin v Hv) as (d & Hd & Hsig).
    destruct (order_domain_values_Ok s v a Hd) as (bv & Eo' & _ & Hkeys & _).
    rewrite Eo in Eo'. injection Eo' as ->.
    intros ->.
    destruct (try_values_None _ _ _ _ _ H (sigma v)) as (g0 & g2 & Hrec).
    { apply sort_by_In, Hkeys. exact Hsig. }
    refine (IH s _ g0 None g2 Hwf Hfill Hin _ Hrec eq_refl).
    apply follows_aset; assumption.
Qed.

Lemma ac3_loop_within (sigma : Var -> string) (fuel : nat) :
  forall (s s' : CrosswordCreator) (queue : list Arc) (b : bool),
    wf_crossword (crossword s) -> filling (crossword s) sigma ->
    within s sigma -> arcs_ok (crossword s) queue ->
    ac3_loop fuel s queue = Some (Ok (b, s')) ->
    b = true /\ within s' sigma.
Proof.
  induction fuel as [|fuel IH]; intros s s' queue b Hwf Hfill Hin Ha H;
    destruct queue as [|[x y] queue]; simpl in H; try discriminate;
    try (injection H as <- <-; auto).
  destruct (revise x y s) as [[changed s1]|e] eqn:Hr; [|discriminate].
  destruct (revise_Ok x y s Hr) as (dx & dy & i & j & Hx & Hy & Ho & Hs1 & _).
  destruct (Ha x y (or_introl eq_refl)) as [Hxv Hyn].
  assert (Hc : crossword s1 = crossword s) by (subst s1; reflexivity).
  assert (Hin1 : within s1 sigma).
  { intros v Hv. rewrite Hc in Hv. destruct (Hin v Hv) as (d & Hd & Hs).
    subst s1; simpl. destruct (Var_eq_dec v x) as [->|Hne].
    - rewrite dget_dset_same. eexists. split; [reflexivity|].
      rewrite Hx in Hd. injection Hd as <-.
      apply supported_In. split; [exact Hs|].
      exists (sigma y). split.
      + destruct (proj2 Hwf x y Hxv Hyn) as (Hyv & _).
        destruct (Hin y Hyv) as (d' & Hd' & Hs'). congruence.
      + destruct Hfill as (_ & _ & Hov).
        destruct (Hov x y Hxv Hyn) as (i' & j' & Ho' & Hag). congruence.
    - rewrite dget_dset_other by exact Hne. eauto. }
  assert (Ha1 : arcs_ok (crossword s1) queue).
  { rewrite Hc. intros x0 y0 H0. apply Ha. right. exact H0. }
  destruct changed.
  - destruct (dget x (domains s1)) as [d|] eqn:Hd1; [|discriminate].
    destruct (List.length d =? 0) eqn:E.
    + exfalso. apply length_zero_nil in E. subst d.
      destruct (Hin1 x) as (d & Hd & Hs); [rewrite Hc; exact Hxv|].
      rewrite Hd1 in Hd. injection Hd as <-. exact Hs.
    + refine (IH s1 s' _ b _ _ Hin1 _ H); try (rewrite Hc; assumption).
      intros x0 y0 H0. apply in_app_or in H0. destruct H0 as [H0|H0].
      * apply Ha1. exact H0.
      * unfold arcs_from in H0. apply in_map_iff in H0.
        destruct H0 as [n [Heq Hn]]. injection Heq as <- <-.
        rewrite Hc in *. auto.
  - refine (IH s1 s' _ b _ _ Hin1 Ha1 H); rewrite Hc; assumption.
Qed.

Lemma enforce_node_consistency_within (s : CrosswordCreator)
    (sigma : Var -> string) :
  NoDup (Dict.keys (domains s)) ->
  filling (crossword s) sigma -> within s sigma ->
  within (enforce_node_consistency s) sigma.
Proof.
  intros Hnd (Hlen & _) Hin v Hv. simpl in Hv.
  destruct (Hin v Hv) as (d & Hd & Hs).
  rewrite (enforce_node_consistency_domains s Hnd), dget_map_entries, Hd. simpl.
  eexists. split; [reflexivity|]. apply node_filter_In. auto.
Qed.

Lemma follows_words_fit (c : Crossword) (sigma : Var -> string) (a : Assignment) :
  filling c sigma -> follows c sigma a -> words_fit c a.
Proof.
  intros (Hlen & _) [_ Hent] v word Hin. destruct (Hent v word Hin) as [Hv ->].
  split; [exact Hv|]. exists (sigma v). auto.
Qed.

Lemma crossword3_filling : filling Examples.crossword3 Examples.sigma3.
Proof.
  split; [|split].
  - intros v Hv. simpl in Hv. destruct Hv as [<-|[<-|[<-|[]]]]; reflexivity.
  - intros x y Hx Hy Hne. simpl in Hx, Hy.
    destruct Hx as [<-|[<-|[<-|[]]]], Hy as [<-|[<-|[<-|[]]]];
      try congruence; discriminate.
  - intros x y Hx Hy. simpl in Hx.
    destruct Hx as [<-|[<-|[<-|[]]]]; simpl in Hy;
      repeat (destruct Hy as [<-|Hy]); try contradiction;
      eexists; eexists; (split; [reflexivity|]); eexists; split; reflexivity.
Qed.

(** X18: the search is exhaustive.  On a well-formed creator with
    node-consistent domains, if the crossword has a filling that takes every
    word from the domain of its slot and the given assignment is part of that
    filling, [backtrack] returns an assignment, not [None]. *)
Theorem backtrack_finds_filling (sigma : Var -> string) (s : CrosswordCreator)
    (a : Assignment) (g : rng) :
  wf_creator s -> node_consistent s ->
  filling (crossword s) sigma -> within s sigma ->
  follows (crossword s) sigma a ->
  exists r g',
    backtrack (S (List.length (unassigned s a))) s a g = Some (Ok (Some r, g')).
Proof.
  intros Hwf Hnc Hfill Hin Hfol.
  destruct (@backtrack_terminates (S (List.length (unassigned s a))) s a g)
    as [r0 Hr0]; [lia|].
  destruct (@backtrack_safe _ s a g r0 Hwf Hnc
              (follows_words_fit Hfill Hfol) Hr0) as (result & g' & ->).
  pose proof (@backtrack_complete sigma _ s a g result g'
                (proj1 Hwf) Hfill Hin Hfol Hr0) as Hne.
  destruct result as [r|]; [eauto|congruence].
Qed.

Lemma creator3_wf :
  wf_creator Examples.creator3 /\ node_consistent Examples.creator3.
Proof. apply enforce_node_consistency_wf, init_wf, crossword3_wf. Qed.

Lemma creator3_within : within Examples.creator3 Examples.sigma3.
Proof.
  intros v Hv. simpl in Hv.
  destruct Hv as [<-|[<-|[<-|[]]]]; eexists; (split; [reflexivity|]);
    simpl; auto.
Qed.

Lemma backtrack_finds_filling_witness :
  exists r g',
    backtrack (S (List.length (unassigned Examples.creator3
                                 [(Examples.B, Some "co"%string)])))
      Examples.creator3 [(Examples.B, Some "co"%string)] (Examples.const_rng 0)
    = Some (Ok (Some r, g')).
Proof.
  apply (@backtrack_finds_filling Examples.sigma3 Examples.creator3
           [(Examples.B, Some "co"%string)] (Examples.const_rng 0)
           (proj1 creator3_wf) (proj2 creator3_wf)
           crossword3_filling creator3_within).
  split.
  - simpl. repeat constructor; simpl; tauto.
  - intros v word [Heq|[]]. injection Heq as <- <-.
    split; [simpl; auto|reflexivity].
Defined.

(** X19: [ac3] removes no word of a filling.  On a well-formed crossword,
    if a filling takes every word from the domain of its slot, [ac3] started
    with all arcs, or with arcs from a slot to one of its neighbors, does not
    return False, and the filling still takes every word from the domain of
    its slot afterwards. *)
Theorem ac3_keeps_fillings (sigma : Var -> string) (arcs : option (list Arc))
    (s s' : CrosswordCreator) (b : bool) :
  wf_crossword (crossword s) -> filling (crossword s) sigma ->
  within s sigma ->
  arcs_ok (crossword s) (initial_queue arcs s) ->
  ac3 arcs s = Some (Ok (b, s')) ->
  b = true /\ within s' sigma.
Proof.
  unfold ac3. intros Hwf Hfill Hin Ha H.
  exact (@ac3_loop_within sigma _ s s' _ b Hwf Hfill Hin Ha H).
Qed.

Lemma ac3_keeps_fillings_witness :
  exists s',
    ac3 None Examples.creator3 = Some (Ok (true, s'))
    /\ within s' Examples.sigma3.
Proof.
  eexists. split; [reflexivity|].
  refine (proj2 (@ac3_keeps_fillings Examples.sigma3 None Examples.creator3 _ true
                   crossword3_wf crossword3_filling creator3_within _ eq_refl)).
  apply all_arcs_ok. exact (proj1 creator3_wf).
Defined.

(** X20: [solve] finds a filling whenever there is one: on a well-formed
    crossword that has a filling with words of the vocabulary, [solve] on a
    new creator returns an assignment, whatever the random draws; it
    returns [None] only when the crossword has no such filling. *)
Theorem solve_finds_filling (c : Crossword) (sigma : Var -> string) (g : rng) :
  wf_crossword c -> filling c sigma ->
  (forall v, In v (variables c) -> In (sigma v) (words c)) ->
  exists a, solve (init c) g = Some (Ok (Some a)).
Proof.
  intros Hwfc Hfill Hvoc.
  pose proof (init_wf Hwfc) as Hwf0.
  assert (Hin0 : within (init c) sigma).
  { intros v Hv. simpl in Hv. exists (words c). split; [|exact (Hvoc v Hv)].
    unfold init; simpl. rewrite init_fold_dget.
    destruct (in_dec Var_eq_dec v (variables c)); [reflexivity|contradiction]. }
  destruct (enforce_node_consistency_wf Hwf0) as [Hwf1 Hnc1].
  assert (Hin1 : within (enforce_node_consistency (init c)) sigma).
  { apply enforce_node_consistency_within; [apply Hwf0|exact Hfill|exact Hin0]. }
  unfold solve.
  destruct (ac3_result None (enforce_node_consistency (init c))) as [r1 Hr1].
  rewrite Hr1. unfold ac3 in Hr1.
  destruct (@ac3_loop_safe _ _ _ r1 Hwf1 Hnc1 (all_arcs_ok Hwf1) Hr1)
    as (b & s2 & -> & Hwf2 & Hnc2).
  assert (Hc2 : crossword s2 = c) by (apply ac3_loop_crossword in Hr1; exact Hr1).
  destruct (@ac3_loop_within sigma _ (enforce_node_consistency (init c)) s2 _ b
              Hwfc Hfill Hin1 (all_arcs_ok Hwf1) Hr1) as [_ Hin2].
  destruct (@backtrack_terminates (S (List.length (unassigned s2 []))) s2 [] g)
    as [r0 Hr0]; [lia|].
  rewrite Hr0.
  assert (Hfol : follows (crossword s2) sigma []).
  { split; [constructor|intros v word []]. }
  rewrite <- Hc2 in Hfill.
  destruct (@backtrack_safe _ s2 [] g r0 Hwf2 Hnc2
              (follows_words_fit Hfill Hfol) Hr0) as (result & g' & ->).
  pose proof (@backtrack_complete sigma _ s2 [] g result g'
                (proj1 Hwf2) Hfill Hin2 Hfol Hr0) as Hne.
  destruct result as [r|]; [eauto|congruence].
Qed.

Lemma solve_finds_filling_witness :
  exists a,
    solve (init Examples.crossword3) (Examples.const_rng 7) = Some (Ok (Some a)).
Proof.
  apply (@solve_finds_filling Examples.crossword3 Examples.sigma3
           (Examples.const_rng 7) crossword3_wf crossword3_filling).
  intros v Hv. simpl in Hv.
  destruct Hv as [<-|[<-|[<-|[]]]]; simpl; auto.
Defined.

(** ** [letter_grid] *)

Lemma list_set_length {A : Type} (n : nat) (x : A) (l : list A) :
  List.length (list_set n x l) = List.length l.
Proof.
  revert n. induction l as [|y l IH]; intros [|n]; simpl; auto.
Qed.

Lemma nth_error_list_set_same {A : Type} (n : nat) (x : A) (l : list A) :
  n < List.length l -> nth_error (list_set n x l) n = Some x.
Proof.
  revert n. induction l as [|y l IH]; intros [|n]; simpl; intros H;
    try lia; [reflexivity|]. apply IH. lia.
Qed.

Lemma nth_error_list_set_other {A : Type} (n m : nat) (x : A) (l : list A) :
  n <> m -> nth_error (list_set n x l) m = nth_error l m.
Proof.
  revert n m. induction l as [|y l IH]; intros [|n] [|m] H; simpl; auto;
    try congruence.
Qed.

Lemma list_set_In {A : Type} (n : nat) (x y : A) (l : list A) :
  In y (list_set n x l) -> y = x \/ In y l.
Proof.
  revert n. induction l as [|z l IH]; intros [|n]; simpl; try tauto.
  - intros [H|H]; auto.
  - intros [H|H]; [auto|]. destruct (IH n H); auto.
Qed.

Lemma cell_repeat (height width i j : nat) :
  cell (repeat (repeat None width) height) i j = None.
Proof.
  unfold cell. destruct (nth_error (repeat (repeat None width) height) i)
    as [row|] eqn:Er; [|reflexivity].
  apply nth_error_In, repeat_spec in Er. subst row.
  destruct (nth_error (repeat None width) j) as [c|] eqn:Ec; [|reflexivity].
  apply nth_error_In, repeat_spec in Ec. exact Ec.
Qed.

Lemma rect_repeat (height width : nat) :
  rect height width (repeat (repeat None width) height).
Proof.
  split; [apply repeat_length|].
  intros row H. apply repeat_spec in H. subst row. apply repeat_length.
Qed.

Lemma set_cell_Ok (height width : nat) (g g' : Grid) (i j : nat) (c : ascii) :
  rect height width g ->
  set_cell g i j c = Ok g' ->
  i < height /\ j < width /\ rect height width g'
  /\ cell g' i j = Some c
  /\ forall i' j', (i', j') <> (i, j) -> cell g' i' j' = cell g i' j'.
Proof.
  intros [Hh Hw] H. unfold set_cell in H.
  bind_ok H as row Er. apply or_raise_Ok in Er.
  destruct (j <? List.length row) eqn:Ej; [|discriminate].
  injection H as <-. apply Nat.ltb_lt in Ej.
  assert (Hi : i < List.length g).
  { apply nth_error_Some. congruence. }
  assert (Hrow : List.length row = width) by (apply Hw, (nth_error_In _ _ Er)).
  split; [lia|]. split; [lia|]. split; [|split].
  - split; [rewrite list_set_length; exact Hh|].
    intros r Hr. apply list_set_In in Hr. destruct Hr as [->|Hr]; [|auto].
    rewrite list_set_length. exact Hrow.
  - unfold cell. rewrite nth_error_list_set_same by exact Hi.
    rewrite nth_error_list_set_same by exact Ej. reflexivity.
  - intros i' j' Hne. unfold cell. destruct (Nat.eq_dec i i') as [<-|Hi'].
    + rewrite nth_error_list_set_same by exact Hi. rewrite Er.
      rewrite nth_error_list_set_other; [reflexivity|]. congruence.
    + rewrite nth_error_list_set_other by exact Hi'. reflexivity.
Qed.

Lemma set_cell_defined (height width : nat) (g : Grid) (i j : nat) (c : ascii) :
  rect height width g -> i < height -> j < width ->
  exists g', set_cell g i j c = Ok g'.
Proof.
  intros [Hh Hw] Hi Hj. unfold set_cell.
  destruct (nth_error g i) as [row|] eqn:Er.
  - simpl. rewrite (Hw row (nth_error_In _ _ Er)).
    apply Nat.ltb_lt in Hj. rewrite Hj. eauto.
  - apply nth_error_None in Er. lia.
Qed.

Lemma coords_cell_of (v : Var) (k : nat) :
  var_i v + (if Direction_eqb (var_direction v) DOWN then k else 0)
  = fst (cell_of v k)
  /\ var_j v + (if Direction_eqb (var_direction v) ACROSS then k else 0)
     = snd (cell_of v k).
Proof.
  unfold cell_of. destruct (var_direction v); simpl; rewrite Nat.add_0_r;
    split; reflexivity.
Qed.

Lemma cell_of_inj (v : Var) (k k' : nat) : cell_of v k = cell_of v k' -> k = k'.
Proof.
  unfold cell_of. destruct (var_direction v); intros [= H]; lia.
Qed.

Lemma letter_of_Some (v : Var) (w : string) (i j : nat) (c : ascii) :
  letter_of v w i j = Some c
  <-> exists k, k < String.length w /\ cell_of v k = (i, j)
                /\ String.get k w = Some c.
Proof.
  unfold letter_of, cell_of. destruct (var_direction v).
  - destruct ((i =? var_i v) && (var_j v <=? j)) eqn:E.
    + apply andb_true_iff in E. destruct E as [Ei Ej].
      apply Nat.eqb_eq in Ei. apply Nat.leb_le in Ej. split.
      * intros H. exists (j - var_j v). split; [|split; [f_equal; lia|exact H]].
        destruct (Nat.lt_ge_cases (j - var_j v) (String.length w)) as [Hl|Hl];
          [exact Hl|]. apply get_None_length in Hl. congruence.
      * intros (k & _ & [= _ Hk] & Hg).
        replace (j - var_j v) with k by lia. exact Hg.
    + split; [discriminate|]. intros (k & _ & [= Hi Hk] & _).
      apply andb_false_iff in E. destruct E as [E|E].
      * apply Nat.eqb_neq in E. congruence.
      * apply Nat.leb_gt in E. lia.
  - destruct ((j =? var_j v) && (var_i v <=? i)) eqn:E.
    + apply andb_true_iff in E. destruct E as [Ej Ei].
      apply Nat.eqb_eq in Ej. apply Nat.leb_le in Ei. split.
      * intros H. exists (i - var_i v). split; [|split; [f_equal; lia|exact H]].
        destruct (Nat.lt_ge_cases (i - var_i v) (String.length w)) as [Hl|Hl];
          [exact Hl|]. apply get_None_length in Hl. congruence.
      * intros (k & _ & [= Hk _] & Hg).
        replace (i - var_i v) with k by lia. exact Hg.
    + split; [discriminate|]. intros (k & _ & [= Hk Hj] & _).
      apply andb_false_iff in E. destruct E as [E|E].
      * apply Nat.eqb_neq in E. congruence.
      * apply Nat.leb_gt in E. lia.
Qed.

Lemma letter_loop_Ok (height width : nat) (v : Var) (w : string) (ks : list nat) :
  forall g g' : Grid,
    rect height width g ->
    letter_loop v (Some w) ks g = Ok g' ->
    rect height width g'
    /\ (forall k, In k ks ->
          k < String.length w
          /\ fst (cell_of v k) < height /\ snd (cell_of v k) < width)
    /\ (forall i j, (forall k, In k ks -> cell_of v k <> (i, j)) ->
                    cell g' i j = cell g i j)
    /\ (forall k, In k ks ->
          cell g' (fst (cell_of v k)) (snd (cell_of v k)) = String.get k w).
Proof.
  induction ks as [|k0 ks IH]; intros g g' Hrect H.
  - simpl in H. injection H as <-. split; [exact Hrect|].
    split; [intros k []|]. split; [reflexivity|intros k []].
  - cbn [letter_loop pygetitem] in H.
    destruct (coords_cell_of v k0) as [Ei Ej]. cbv zeta in H.
    rewrite Ei, Ej in H. clear Ei Ej.
    bind_ok H as c Ec. apply or_raise_Ok in Ec.
    destruct (cell_of v k0) as [i0 j0] eqn:Ecell. simpl fst in H. simpl snd in H.
    bind_ok H as g1 Eg1.
    destruct (@set_cell_Ok height width g g1 i0 j0 c Hrect Eg1) as (Hi & Hj & Hrect1 & Hsame & Hother).
    destruct (IH g1 g' Hrect1 H) as (Hrect' & Hks & Hkeep & Hwritten).
    assert (Hk0 : k0 < String.length w).
    { destruct (Nat.lt_ge_cases k0 (String.length w)) as [Hl|Hl]; [exact Hl|].
      apply get_None_length in Hl. congruence. }
    split; [exact Hrect'|]. split; [|split].
    + intros k [<-|Hk]; [rewrite Ecell; auto|auto].
    + intros i j Hno. rewrite Hkeep.
      * apply Hother. intros Heq. apply (Hno k0 (or_introl eq_refl)).
        congruence.
      * intros k Hk. apply Hno. right. exact Hk.
    + intros k Hk. destruct (in_dec Nat.eq_dec k ks) as [Hin|Hnin]; [auto|].
      destruct Hk as [<-|Hk]; [|contradiction].
      rewrite Ecell. simpl. rewrite Hkeep.
      * rewrite Hsame. symmetry. exact Ec.
      * intros k Hk Heq. rewrite <- Ecell in Heq. apply cell_of_inj in Heq.
        subst k. contradiction.
Qed.

Lemma letter_word_Ok (height width : nat) (v : Var) (w : string) (g g' : Grid) :
  rect height width g ->
  letter_loop v (Some w) (seq 0 (String.length w)) g = Ok g' ->
  rect height width g'
  /\ (forall k, k < String.length w ->
        fst (cell_of v k) < height /\ snd (cell_of v k) < width)
  /\ forall i j, cell g' i j = match letter_of v w i j with
                               | Some c => Some c
                               | None => cell g i j
                               end.
Proof.
  intros Hrect H.
  destruct (@letter_loop_Ok height width v w _ g g' Hrect H) as (Hrect' & Hks & Hkeep & Hwritten).
  split; [exact Hrect'|]. split.
  - intros k Hk. apply Hks. apply in_seq. lia.
  - intros i j. destruct (letter_of v w i j) as [c|] eqn:El.
    + apply letter_of_Some in El. destruct El as (k & Hk & Hcell & Hg).
      rewrite <- Hg.
      replace i with (fst (cell_of v k)) by (rewrite Hcell; reflexivity).
      replace j with (snd (cell_of v k)) by (rewrite Hcell; reflexivity).
      apply Hwritten. apply in_seq. lia.
    + apply Hkeep. intros k Hk Hcell. apply in_seq in Hk.
      destruct (get_in_range w (n := k)) as [c Hc]; [lia|].
      assert (Hs : letter_of v w i j = Some c).
      { apply letter_of_Some. exists k. split; [lia|]. auto. }
      congruence.
Qed.

Lemma letter_items_Ok (height width : nat) (items : list (Var * pyword)) :
  forall g g' : Grid,
    rect height width g ->
    letter_items items g = Ok g' ->
    rect height width g'
    /\ fits height width items
    /\ forall i j,
        cell g' i j
        = fold_left
            (fun acc '(v, word) =>
               match word with
               | Some w => match letter_of v w i j with
                           | Some c => Some c
                           | None => acc
                           end
               | None => acc
               end) items (cell g i j).
Proof.
  induction items as [|[v word] rest IH]; intros g g' Hrect H.
  - simpl in H. injection H as <-. split; [exact Hrect|].
    split; [intros ? ? []|reflexivity].
  - cbn [letter_items] in H. bind_ok H as n En.
    destruct word as [w|]; [|discriminate]. injection En as <-.
    bind_ok H as g1 Eg1.
    destruct (@letter_word_Ok height width v w g g1 Hrect Eg1) as (Hrect1 & Hfit & Hcell).
    destruct (IH g1 g' Hrect1 H) as (Hrect' & Hfits & Hcells).
    split; [exact Hrect'|]. split.
    + intros v0 word0 [Heq|Hin]; [|exact (Hfits v0 word0 Hin)].
      injection Heq as <- <-. eauto.
    + intros i j. rewrite Hcells. simpl. rewrite Hcell. reflexivity.
Qed.

Lemma letter_loop_defined (height width : nat) (v : Var) (w : string)
    (ks : list nat) :
  forall g : Grid,
    rect height width g ->
    (forall k, In k ks ->
       k < String.length w
       /\ fst (cell_of v k) < height /\ snd (cell_of v k) < width) ->
    exists g', letter_loop v (Some w) ks g = Ok g'.
Proof.
  induction ks as [|k0 ks IH]; intros g Hrect Hks; [simpl; eauto|].
  cbn [letter_loop pygetitem].
  destruct (coords_cell_of v k0) as [Ei Ej]. cbv zeta.
  rewrite Ei, Ej. clear Ei Ej.
  destruct (Hks k0 (or_introl eq_refl)) as (Hk & Hi & Hj).
  unfold getitem. destruct (get_in_range w Hk) as [c ->]. simpl bind.
  destruct (cell_of v k0) as [i0 j0]. simpl in Hi, Hj. simpl fst. simpl snd.
  destruct (@set_cell_defined height width g i0 j0 c Hrect Hi Hj) as [g1 Eg1].
  rewrite Eg1. simpl. apply IH.
  - exact (proj1 (proj2 (proj2 (@set_cell_Ok height width g g1 i0 j0 c Hrect Eg1)))).
  - intros k Hk'. apply Hks. right. exact Hk'.
Qed.

Lemma letter_items_defined (height width : nat) (items : list (Var * pyword)) :
  forall g : Grid,
    rect height width g -> fits height width items ->
    exists g', letter_items items g = Ok g'.
Proof.
  induction items as [|[v word] rest IH]; intros g Hrect Hfits; [simpl; eauto|].
  destruct (Hfits v word (or_introl eq_refl)) as (w & -> & Hw).
  cbn [letter_items len bind].
  destruct (@letter_loop_defined height width v w (seq 0 (String.length w)) g Hrect)
    as [g1 Eg1].
  { intros k Hk. apply in_seq in Hk. split; [lia|]. apply Hw. lia. }
  rewrite Eg1. simpl. apply IH.
  - exact (proj1 (@letter_word_Ok height width v w g g1 Hrect Eg1)).
  - intros v0 word0 Hin. apply Hfits. right. exact Hin.
Qed.

(** X21: the grid [letter_grid] returns has [height] rows of [width] cells,
    and each cell holds the character that the last entry of the assignment
    running through it puts there, or [None] when no entry runs through
    it. *)
Theorem letter_grid_cells (height width : nat) (a : Assignment) (g : Grid) :
  letter_grid height width a = Ok g ->
  List.length g = height
  /\ (forall row, In row g -> List.length row = width)
  /\ forall i j, cell g i j = shown a i j.
Proof.
  unfold letter_grid, Dict.items. intros H.
  destruct (@letter_items_Ok height width a _ g (rect_repeat height width) H) as ([Hh Hw] & _ & Hc).
  split; [exact Hh|]. split; [exact Hw|].
  intros i j. rewrite Hc, cell_repeat. reflexivity.
Qed.

Lemma letter_grid_cells_witness :
  exists g,
    letter_grid 2 3 [(Examples.A, Some "cat"%string);
                     (Examples.B, Some "co"%string)] = Ok g
    /\ List.length g = 2
    /\ (forall row, In row g -> List.length row = 3)
    /\ forall i j,
        cell g i j
        = shown [(Examples.A, Some "cat"%string);
                 (Examples.B, Some "co"%string)] i j.
Proof.
  eexists. split; [reflexivity|].
  apply (@letter_grid_cells 2 3 [(Examples.A, Some "cat"%string);
                                 (Examples.B, Some "co"%string)]).
  reflexivity.
Defined.

(** X22: [letter_grid] returns a grid exactly when every entry of the
    assignment is a word all of whose cells lie in the grid; otherwise (a
    value [None], or a word running out of the grid) it raises. *)
Theorem letter_grid_returns_iff (height width : nat) (a : Assignment) :
  (exists g, letter_grid height width a = Ok g) <-> fits height width a.
Proof.
  unfold letter_grid, Dict.items. split.
  - intros [g H].
    exact (proj1 (proj2 (@letter_items_Ok height width a _ g (rect_repeat height width) H))).
  - intros H. apply (@letter_items_defined height width); [apply rect_repeat|exact H].
Qed.

(** ** [assignment_complete] and [consistent] across the methods *)

(** X23: [assignment_complete] answers True exactly when no slot is left
    for [select_unassigned_variable] to choose from, so that a call of
    [select_unassigned_variable] on a complete assignment raises
    IndexError. *)
Theorem assignment_complete_iff (s : CrosswordCreator) (a : Assignment) (g : rng) :
  (assignment_complete s a = true <-> unassigned s a = [])
  /\ (assignment_complete s a = true ->
      select_unassigned_variable s a g = Raise IndexError).
Proof.
  assert (Hiff : assignment_complete s a = true <-> unassigned s a = []).
  { split.
    - intros H. destruct (unassigned s a) as [|v rest] eqn:E; [reflexivity|].
      exfalso. assert (Hv : In v (unassigned s a)) by (rewrite E; left; reflexivity).
      apply unassigned_In in Hv. destruct Hv as [Hv Hm].
      unfold assignment_complete in H. rewrite forallb_forall in H.
      rewrite (H v Hv) in Hm. discriminate.
    - intros H. destruct (assignment_complete s a) eqn:E; [reflexivity|].
      apply unassigned_nonempty in E. contradiction. }
  split; [exact Hiff|]. intros H. apply Hiff in H.
  unfold select_unassigned_variable. rewrite H. reflexivity.
Qed.

Lemma NoDup_map_of_inj {A B : Type} (f : A -> B) (l : list A) :
  NoDup l ->
  (forall p q, In p l -> In q l -> f p = f q -> p = q) ->
  NoDup (map f l).
Proof.
  induction l as [|x l IH]; simpl; intros Hnd Hinj; [constructor|].
  inversion Hnd as [|? ? Hx Hl]; subst. constructor.
  - intros Hin. apply in_map_iff in Hin. destruct Hin as [y [Hfy Hy]].
    assert (y = x) by (apply Hinj; auto). subst y. contradiction.
  - apply IH; [exact Hl|]. intros p q Hp Hq. apply Hinj; auto.
Qed.

Lemma NoDup_keys_entries {V : Type} (d : Dict.t Var V) :
  NoDup (Dict.keys d) -> NoDup d.
Proof.
  unfold Dict.keys. induction d as [|e d IH]; simpl; intros H; [constructor|].
  inversion H as [|? ? He Hd]; subst. constructor; [|auto].
  intros Hin. apply He. apply in_map. exact Hin.
Qed.

(** X24: the answer True of [consistent] does not depend on the order of
    the entries: if [consistent] answers True for a dictionary, it answers
    True for every dictionary with the same entries in another order. *)
Theorem consistent_True_any_order (s : CrosswordCreator) (a a' : Assignment) :
  NoDup (Dict.keys a) -> NoDup (Dict.keys a') ->
  (forall e, In e a' <-> In e a) ->
  consistent s a = Ok true ->
  consistent s a' = Ok true.
Proof.
  intros Hka Hka' Hsame H. unfold consistent, Dict.items in *.
  apply consistent_loop_true in H. destruct H as [Hnd Hall].
  specialize (Hnd (NoDup_nil _)). simpl in Hnd.
  assert (Hget : forall n word, aget n a = Some word -> aget n a' = Some word).
  { intros n word Hg. apply (In_get_NoDup Var_eqb Var_eqb_eq); [exact Hka'|].
    apply Hsame. apply (get_Some_In Var_eqb Var_eqb_eq). exact Hg. }
  apply consistent_loop_agree.
  - simpl. apply NoDup_map_of_inj.
    + apply NoDup_keys_entries. exact Hka'.
    + intros p q Hp Hq Hpq. apply Hsame in Hp, Hq.
      exact (NoDup_map_In_eq snd a p q Hnd Hp Hq Hpq).
  - intros v word Hin. apply Hsame in Hin.
    destruct (Hall v word Hin) as (w & -> & Hlen & Hc).
    exists w. split; [reflexivity|]. split; [exact Hlen|].
    intros n Hn.
    destruct (check_neighbors_true _ _ _ _ _ Hc n Hn) as (nw & Hg & Hcase).
    pose proof (get_Some_In Var_eqb Var_eqb_eq _ _ Hg) as Hnin.
    destruct (Hall n nw Hnin) as (w' & -> & _).
    destruct Hcase as [Hnone|(w'' & x_i & y_i & Heq & Ho & Hag)]; [discriminate|].
    injection Heq as <-. exists w', x_i, y_i. auto.
Qed.

Lemma consistent_True_any_order_witness :
  consistent Examples.creator3
    [(Examples.A, Some "cat"%string); (Examples.C, Some "to"%string);
     (Examples.B, Some "co"%string)] = Ok true.
Proof.
  apply (@consistent_True_any_order Examples.creator3
           [(Examples.B, Some "co"%string); (Examples.C, Some "to"%string);
            (Examples.A, Some "cat"%string)]).
  - simpl. repeat constructor; simpl; intuition discriminate.
  - simpl. repeat constructor; simpl; intuition discriminate.
  - intros e. simpl. tauto.
  - reflexivity.
Defined.
